(** * Jishaku: the Python evaluation commands and the task-cancel command

    A shallow embedding of [jishaku/features/python.py] ([PythonFeature]) and
    of [jsk_cancel], [jsk_tasks], [jsk_hide] and [jsk_show] from
    [jishaku/features/root_command.py], with the properties of the scoped
    evaluator that the commands are responsible for.

    Python objects that the commands share (the [Scope] objects, the
    feature's attributes, the task deque) live in an explicit [World]; the
    coroutines are functions in a state-and-exception monad over it.  An
    exception that propagates, and an [asyncio] cancellation (which is the
    exception [CancelledError] thrown at a wait point), leave the state
    changes made so far in place, as they do in Python. *)

From stdpp Require Import gmap strings list fin_maps pretty.
From Stdlib Require Import QArith.
From Stdlib Require Ascii String.
Close Scope Q_scope.

(** ** Python strings

    A [str] is a sequence of code points; [len] counts code points. *)

Abbreviation pystr := (list N).

(** An ASCII literal of the source as a [str]. *)
Definition py (s : string) : pystr :=
  (λ a, Ascii.N_of_ascii a) <$> String.list_ascii_of_string s.

Module PyStr.

(** [s.startswith(p)] *)
Fixpoint startswith (p s : pystr) : bool :=
  match p, s with
  | [], _ => true
  | _ :: _, [] => false
  | a :: p', b :: s' => if decide (a = b) then startswith p' s' else false
  end.

(** [s.replace(old, new)] for a non-empty [old]: the occurrences are
    replaced from the left and do not overlap.  [skip] counts the
    characters of a matched occurrence that are still to be dropped. *)
Fixpoint replace_from (old new : pystr) (skip : nat) (s : pystr) : pystr :=
  match s with
  | [] => []
  | c :: s' =>
      match skip with
      | S k => replace_from old new k s'
      | O =>
          if startswith old s
          then new ++ replace_from old new (length old - 1) s'
          else c :: replace_from old new 0 s'
      end
  end.

(** [s.replace(old, new)]; with an empty [old] Python puts [new] before
    every character and at the end. *)
Definition replace (old new s : pystr) : pystr :=
  match old with
  | [] => new ++ flat_map (λ c, c :: new) s
  | _ :: _ => replace_from old new 0 s
  end.

(** [str.isspace] of one character (CPython's [_PyUnicode_IsWhitespace]).
    U+200B, the zero width space, is not white space. *)
Definition isspace (c : N) : bool :=
  ((9 <=? c) && (c <=? 13) || (28 <=? c) && (c <=? 32)
   || (c =? 133) || (c =? 160) || (c =? 5760)
   || (8192 <=? c) && (c <=? 8202)
   || (c =? 8232) || (c =? 8233) || (c =? 8239) || (c =? 8287)
   || (c =? 12288))%N.

Fixpoint lstrip (s : pystr) : pystr :=
  match s with
  | [] => []
  | c :: s' => if isspace c then lstrip s' else s
  end.

(** [s.strip()] *)
Definition strip (s : pystr) : pystr := rev (lstrip (rev (lstrip s))).

(** [sep.join(parts)] *)
Fixpoint join (sep : pystr) (parts : list pystr) : pystr :=
  match parts with
  | [] => []
  | [x] => x
  | x :: rest => x ++ sep ++ join sep rest
  end.

(** [s.split("\n")[0]] *)
Fixpoint first_line (s : pystr) : pystr :=
  match s with
  | [] => []
  | c :: s' => if (c =? 10)%N then [] else c :: first_line s'
  end.

(** The format spec [:16.16] applied to a [str]: cut to 16 characters,
    then padded with spaces on the right to 16. *)
Definition format_16_16 (s : pystr) : pystr :=
  let t := take 16 s in t ++ replicate (16 - length t) 32%N.

(** [str(i)] of an [int] *)
Definition of_int (i : Z) : pystr := py (pretty i).

(** [s.encode('utf-8')]; [None] stands for [UnicodeEncodeError] (a
    surrogate, or a value that is no code point). *)
Definition utf8_char (c : N) : option (list N) :=
  (if c <? 128 then Some [c]
   else if c <? 2048 then Some [192 + c / 64; 128 + c mod 64]
   else if (55296 <=? c) && (c <=? 57343) then None
   else if c <? 65536 then
     Some [224 + c / 4096; 128 + (c / 64) mod 64; 128 + c mod 64]
   else if c <? 1114112 then
     Some [240 + c / 262144; 128 + (c / 4096) mod 64;
           128 + (c / 64) mod 64; 128 + c mod 64]
   else None)%N.

Fixpoint encode_utf8 (s : pystr) : option (list N) :=
  match s with
  | [] => Some []
  | c :: s' =>
      match utf8_char c, encode_utf8 s' with
      | Some b, Some bs => Some (b ++ bs)
      | _, _ => None
      end
  end.

End PyStr.

(** ** Objects of the chat library that the commands handle *)

(** A user, channel or role: its id and its [mention] token. *)
Record Entity := { ent_id : Z; ent_mention : pystr }.

Record Message := {
  msg_id : Z;
  msg_author : Z;            (* author.id *)
  msg_channel : Z;           (* channel.id *)
  msg_content : pystr;
  msg_mentions : list Entity;
  msg_channel_mentions : list Entity;
  msg_role_mentions : list Entity
}.

(** [discord.File(filename=..., fp=io.BytesIO(...))] *)
Record File := { file_name : pystr; file_bytes : list N }.

(** A [WrappedPaginator]: its settings and the lines added to it.  A
    suffix that the call leaves out is [None].  [jishaku.paginators] is
    not among the sources: of [add_line] only the line that it was given
    is kept; how the class wraps a line over pages, and what it may raise
    on the way, is outside this development. *)
Record Paginator := {
  pg_prefix : pystr;
  pg_suffix : option pystr;
  pg_max_size : nat;
  pg_lines : list pystr
}.

Definition WrappedPaginator (prefix : pystr) (suffix : option pystr)
    (max_size : nat) : Paginator :=
  {| pg_prefix := prefix; pg_suffix := suffix; pg_max_size := max_size;
     pg_lines := [] |}.

Definition add_line (p : Paginator) (line : pystr) : Paginator :=
  {| pg_prefix := pg_prefix p; pg_suffix := pg_suffix p;
     pg_max_size := pg_max_size p; pg_lines := pg_lines p ++ [line] |}.

(** [PaginatorInterface(bot, paginator, owner=...)] *)
Record Interface := { if_paginator : Paginator; if_owner : Z }.

(** The values that executed code can produce. *)
Inductive value :=
| VNone
| VStr (s : pystr)
| VInt (i : Z)
| VUser (e : Entity)
| VChannel (e : Entity)
| VRole (e : Entity)
| VMessage (m : Message)
| VFile (f : File)
| VEmbed (e : nat)
| VPaginatorInterface (i : Interface)
| VObject (o : nat).               (* any other object *)

Inductive exn :=
| CancelledError                   (* cooperative cancellation *)
| TimeoutError
| SyntaxError
| KeyError
| UnicodeEncodeError
| BadArgument (msg : pystr)
| IndexError
| HostError (e : nat).             (* any other exception *)

#[global] Instance Entity_eq_dec : EqDecision Entity.
Proof. solve_decision. Defined.
#[global] Instance exn_eq_dec : EqDecision exn.
Proof. solve_decision. Defined.

(** The invocation context of a command. *)
Record Context := {
  ctx_author : Z;            (* ctx.author.id *)
  ctx_channel : Z;           (* ctx.channel.id *)
  ctx_message : Message;
  ctx_command : pystr;       (* ctx.command.qualified_name *)
  ctx_created_at : pystr     (* ctx.message.created_at, as strftime prints it *)
}.

(** [jishaku.codeblocks.Codeblock] *)
Record Codeblock := { cb_language : option pystr; content : pystr }.


(** What reaches the chat: the argument of one [ctx.send] or of one
    [PaginatorInterface.send_to]. *)
Inductive Payload :=
| Text (s : pystr)
| Upload (f : File)
| EmbedPost (e : nat)
| Pages (i : Interface).

(** ** The shared state *)

(** Scope objects are shared by reference: a [loc] names one. *)
Abbreviation loc := nat.

(** Modelled from the spec: [jishaku.repl.Scope] is not among the sources.
    A Scope is "a mapping from identifier to value (the live binding
    table); an optional reference to a prior Scope for layered lookup". *)
Record Scope := {
  bindings : gmap pystr value;
  prior : option loc
}.

(** [Scope()] *)
Definition empty_Scope : Scope := {| bindings := ∅; prior := None |}.

(** Modelled from the spec: [update(bindings)] "merge an external mapping
    into the live binding table, overwriting on key collision". *)
Definition Scope_update (d : gmap pystr value) (s : Scope) : Scope :=
  {| bindings := d ∪ bindings s; prior := prior s |}.

(** Modelled from the spec: [clear_intersection(bindings)] "remove from
    the live table every key that is present in bindings". *)
Definition Scope_clear_intersection (d : gmap pystr value) (s : Scope) : Scope :=
  {| bindings := bindings s ∖ d; prior := prior s |}.

(** An assignment to [name] against the binding table. *)
Definition Scope_bind (name : pystr) (v : value) (s : Scope) : Scope :=
  {| bindings := <[name := v]> (bindings s); prior := prior s |}.

(** Modelled from the spec: a Running Task of the task registry
    ([Feature.tasks] is declared in [jishaku.features.baseclass], which is
    not among the sources): "monotonically increasing index, handle to
    the underlying asynchronous unit of work (cancellable), reference to
    the originating invocation context". *)
Record CommandTask := {
  task_index : Z;
  task_ctx : Context;
  task_handle : nat
}.

#[global] Instance Message_eq_dec : EqDecision Message.
Proof. solve_decision. Defined.
#[global] Instance Context_eq_dec : EqDecision Context.
Proof. solve_decision. Defined.
#[global] Instance CommandTask_eq_dec : EqDecision CommandTask.
Proof. solve_decision. Defined.

(** What the commands do to their collaborators. *)
Inductive Event :=
| Sent (channel : Z) (p : Payload)
| ExecutorCreated (source : pystr) (scope : loc)
    (arg_dict : gmap pystr value) (convertables : option (list (pystr * pystr)))
| ClearIntersection (scope : loc) (arg_dict : gmap pystr value)
| CancelRequested (handle : nat).

Record World := {
  (* PythonFeature *)
  _scope : loc;
  retain : bool;
  last_result : value;
  repl_sessions : gset Z;
  (* Feature *)
  tasks : list CommandTask;
  task_count : Z;
  (* the Scope objects that exist *)
  heap : gmap loc Scope;
  (* the outside; the events are kept newest first *)
  events : list Event;
  next_message : Z;
  (* what the outside does at the wait points to come: [Some e] throws
     [e] into the coroutine there, [None] lets it go on; past the end
     every wait goes on *)
  faults : list (option exn)
}.

Definition with_scope (l : loc) (w : World) : World :=
  {| _scope := l; retain := retain w; last_result := last_result w;
     repl_sessions := repl_sessions w; tasks := tasks w;
     task_count := task_count w; heap := heap w; events := events w;
     next_message := next_message w; faults := faults w |}.

Definition with_retain (b : bool) (w : World) : World :=
  {| _scope := _scope w; retain := b; last_result := last_result w;
     repl_sessions := repl_sessions w; tasks := tasks w;
     task_count := task_count w; heap := heap w; events := events w;
     next_message := next_message w; faults := faults w |}.

Definition with_last_result (v : value) (w : World) : World :=
  {| _scope := _scope w; retain := retain w; last_result := v;
     repl_sessions := repl_sessions w; tasks := tasks w;
     task_count := task_count w; heap := heap w; events := events w;
     next_message := next_message w; faults := faults w |}.

Definition with_repl_sessions (s : gset Z) (w : World) : World :=
  {| _scope := _scope w; retain := retain w; last_result := last_result w;
     repl_sessions := s; tasks := tasks w;
     task_count := task_count w; heap := heap w; events := events w;
     next_message := next_message w; faults := faults w |}.

Definition with_tasks (t : list CommandTask) (w : World) : World :=
  {| _scope := _scope w; retain := retain w; last_result := last_result w;
     repl_sessions := repl_sessions w; tasks := t;
     task_count := task_count w; heap := heap w; events := events w;
     next_message := next_message w; faults := faults w |}.

Definition with_task_count (n : Z) (w : World) : World :=
  {| _scope := _scope w; retain := retain w; last_result := last_result w;
     repl_sessions := repl_sessions w; tasks := tasks w;
     task_count := n; heap := heap w; events := events w;
     next_message := next_message w; faults := faults w |}.

Definition with_heap (h : gmap loc Scope) (w : World) : World :=
  {| _scope := _scope w; retain := retain w; last_result := last_result w;
     repl_sessions := repl_sessions w; tasks := tasks w;
     task_count := task_count w; heap := h; events := events w;
     next_message := next_message w; faults := faults w |}.

Definition with_events (e : list Event) (w : World) : World :=
  {| _scope := _scope w; retain := retain w; last_result := last_result w;
     repl_sessions := repl_sessions w; tasks := tasks w;
     task_count := task_count w; heap := heap w; events := e;
     next_message := next_message w; faults := faults w |}.

Definition with_next_message (n : Z) (w : World) : World :=
  {| _scope := _scope w; retain := retain w; last_result := last_result w;
     repl_sessions := repl_sessions w; tasks := tasks w;
     task_count := task_count w; heap := heap w; events := events w;
     next_message := n; faults := faults w |}.

Definition with_faults (f : list (option exn)) (w : World) : World :=
  {| _scope := _scope w; retain := retain w; last_result := last_result w;
     repl_sessions := repl_sessions w; tasks := tasks w;
     task_count := task_count w; heap := heap w; events := events w;
     next_message := next_message w; faults := f |}.

(** The value bound to [name] in the Scope object at [l]. *)
Definition scope_lookup (w : World) (l : loc) (name : pystr) : option value :=
  s ← heap w !! l; bindings s !! name.

(** ** Coroutines: state and exceptions *)

Inductive outcome (A : Type) :=
| Ok (a : A)
| Raised (e : exn).
Arguments Ok {A} a.
Arguments Raised {A} e.

Definition M (A : Type) : Type := World → outcome A * World.

Definition ret {A} (a : A) : M A := λ w, (Ok a, w).

Definition bind {A B} (m : M A) (k : A → M B) : M B :=
  λ w, match m w with
       | (Ok a, w') => k a w'
       | (Raised e, w') => (Raised e, w')
       end.

Definition raise {A} (e : exn) : M A := λ w, (Raised e, w).

Definition get : M World := λ w, (Ok w, w).

Definition modify (f : World → World) : M unit := λ w, (Ok tt, f w).

Declare Scope coroutine_scope.
Delimit Scope coroutine_scope with M.
Bind Scope coroutine_scope with M.
Notation "x <- a ;; b" := (bind a (λ x, b))
  (at level 100, a at next level, right associativity) : coroutine_scope.
Notation "a ;; b" := (bind a (λ _, b))
  (at level 100, right associativity) : coroutine_scope.
Open Scope coroutine_scope.

(** [try: body finally: cleanup]: the cleanup runs however the body ends;
    the body's outcome stands unless the cleanup itself raises. *)
Definition try_finally {A} (body : M A) (cleanup : M unit) : M A :=
  λ w, let '(o, w1) := body w in
       match cleanup w1 with
       | (Ok _, w2) => (o, w2)
       | (Raised e, w2) => (Raised e, w2)
       end.

(** A wait point ([await]) on the outside: the next entry of [faults]
    decides whether the coroutine goes on or has an exception thrown in. *)
Definition await_point : M unit :=
  λ w, match faults w with
       | [] => (Ok tt, w)
       | None :: f => (Ok tt, with_faults f w)
       | Some e :: f => (Raised e, with_faults f w)
       end.

Definition emit (e : Event) : M unit :=
  modify (λ w, with_events (e :: events w) w).

(** ** Executed code *)

(** Modelled from the spec: the unit that [AsyncCodeExecutor] drives
    ([jishaku.repl] is not among the sources), "a suspendable unit of work
    exposing advance(maybe_value) -> Suspended(value) | Done | Failed(error)"
    that runs against the target Scope's bindings.  [Emit] is one of the
    wrapper's result-emission points, resumed with the consumer's
    continuation value; [Wait] is a wait point of the executed code. *)
Inductive Code :=
| Emit (result : value) (resume : option value → Code)
| Bind (name : pystr) (v : value) (next : Code)
| Read (name : pystr) (next : option value → Code)
| Wait (next : Code)
| Fail (e : exn)
| Finish.

(** ** What the sources import and this development takes as given *)

Record Externals := {
  (* jishaku.flags.Flags *)
  SCOPE_PREFIX : pystr;
  RETAIN : bool;
  NO_REPL_PREFX : bool;
  (* self.bot.http.token and self.bot.user.id *)
  bot_token : pystr;
  bot_id : Z;
  (* the host's repr(), parser and evaluator, version strings; repr is
     taken to return: a __repr__ that raises is outside this development *)
  repr : value → pystr;
  compile : pystr → option Code;
  sys_version : pystr;
  sys_platform : pystr;
  (* discord.Message.jump_url *)
  jump_url : Message → pystr;
  (* jishaku.repl, jishaku.codeblocks, jishaku.paginators *)
  get_var_dict_from_ctx : Context → pystr → gmap pystr value;
  all_inspections : value → list (pystr * pystr);
  codeblock_converter : pystr → Codeblock;
  use_file_check : Context → nat → bool;
  send_to_result : Interface → value;
  (* jishaku.exception_handling.ReplResponseReactor: the exceptions that
     its exit handles itself *)
  reactor_handles : exn → bool
}.

Section Commands.

Variable X : Externals.

(** ** Scope objects in the store *)

(** [Scope()]: a new object with an empty binding table. *)
Definition new_Scope : M loc :=
  λ w, let l := fresh (dom (heap w)) in
       (Ok l, with_heap (<[l := empty_Scope]> (heap w)) w).

(** [scope.update(d)] on the Scope object at [l]. *)
Definition update (l : loc) (d : gmap pystr value) : M unit :=
  modify (λ w, with_heap (alter (Scope_update d) l (heap w)) w).

(** [scope.clear_intersection(d)] on the Scope object at [l]; the call is
    noted in the events. *)
Definition clear_intersection (l : loc) (d : gmap pystr value) : M unit :=
  emit (ClearIntersection l d) ;;
  modify (λ w, with_heap (alter (Scope_clear_intersection d) l (heap w)) w).

(** The executed code binds [name] in the Scope object at [l]. *)
Definition assign (l : loc) (name : pystr) (v : value) : M unit :=
  modify (λ w, with_heap (alter (Scope_bind name v) l (heap w)) w).

(** ** PythonFeature *)

(** [PythonFeature.__init__], on top of a [Feature] with no tasks. *)
Definition PythonFeature_init : World :=
  let blank :=
    {| _scope := 0; retain := RETAIN X; last_result := VNone;
       repl_sessions := ∅; tasks := []; task_count := 0; heap := ∅;
       events := []; next_message := 0; faults := [] |} in
  match new_Scope blank with
  | (Ok l, w) => with_scope l w
  | (Raised _, w) => w
  end.

(** The [scope] property. *)
Definition scope : M loc :=
  w <- get ;;
  if retain w then ret (_scope w) else new_Scope.

(** [await ctx.send(...)]: a wait point; the message object that the chat
    library hands back is the value. *)
Definition ctx_send (ctx : Context) (p : Payload) : M value :=
  await_point ;;
  w <- get ;;
  modify (λ w, with_next_message (next_message w + 1)
                 (with_events (Sent (ctx_channel ctx) p :: events w) w)) ;;
  ret (VMessage
         {| msg_id := next_message w; msg_author := bot_id X;
            msg_channel := ctx_channel ctx;
            msg_content := match p with Text s => s | _ => [] end;
            msg_mentions := []; msg_channel_mentions := [];
            msg_role_mentions := [] |}).

(** [await interface.send_to(ctx)] *)
Definition send_to (i : Interface) (ctx : Context) : M value :=
  await_point ;;
  emit (Sent (ctx_channel ctx) (Pages i)) ;;
  ret (send_to_result X i).

Definition jsk_retain (ctx : Context) (toggle : option bool) : M value :=
  w <- get ;;
  match toggle with
  | None =>
      if retain w
      then ctx_send ctx (Text (py "Variable retention is set to ON."))
      else ctx_send ctx (Text (py "Variable retention is set to OFF."))
  | Some true =>
      if retain w
      then ctx_send ctx (Text (py "Variable retention is already set to ON."))
      else
        modify (with_retain true) ;;
        l <- new_Scope ;;
        modify (with_scope l) ;;
        ctx_send ctx (Text (py
          "Variable retention is ON. Future REPL sessions will retain their scope."))
  | Some false =>
      if negb (retain w)
      then ctx_send ctx (Text (py "Variable retention is already set to OFF."))
      else
        modify (with_retain false) ;;
        ctx_send ctx (Text (py
          "Variable retention is OFF. Future REPL sessions will dispose their scope when done."))
  end.

(** The text that [jsk_python_result_handling] goes on with: a [str] as it
    is, anything else through [repr]. *)
Definition result_text (result : value) : pystr :=
  match result with
  | VStr s => s
  | _ => repr X result
  end.

Definition jsk_python_result_handling (ctx : Context) (result : value) : M value :=
  match result with
  | VMessage m =>
      ctx_send ctx (Text (py "<Message <" ++ jump_url X m ++ py ">>"))
  | VFile f => ctx_send ctx (Upload f)
  | VEmbed e => ctx_send ctx (EmbedPost e)
  | VPaginatorInterface i => send_to i ctx
  | _ =>
      let result := result_text result in
      if length result <=? 2000 then
        let result :=
          if decide (PyStr.strip result = []) then [8203%N] else result in
        ctx_send ctx
          (Text (PyStr.replace (bot_token X) (py "[token omitted]") result))
      else if use_file_check X ctx (length result) then
        match PyStr.encode_utf8 result with
        | Some bytes =>
            ctx_send ctx
              (Upload {| file_name := py "output.py"; file_bytes := bytes |})
        | None => raise UnicodeEncodeError
        end
      else
        let paginator :=
          add_line (WrappedPaginator (py "```py") (Some (py "```")) 1985)
                   result in
        let interface :=
          {| if_paginator := paginator; if_owner := ctx_author ctx |} in
        send_to interface ctx
  end.

(** [d[k] = v] on a [dict], which keeps the order in which its keys were
    first set. *)
Fixpoint dict_set (k v : pystr) (d : list (pystr * pystr)) : list (pystr * pystr) :=
  match d with
  | [] => [(k, v)]
  | (k', v') :: d' =>
      if decide (k = k') then (k, v) :: d' else (k', v') :: dict_set k v d'
  end.

(** [f"__user_mention_{index}"] and its like for channels and roles. *)
Definition mention_name (kind : string) (index : nat) : pystr :=
  py "__" ++ py kind ++ py "_mention_" ++ PyStr.of_int (Z.of_nat index).

(** One of the three [for index, x in enumerate(...)] loops of
    [jsk_python_get_convertables]. *)
Definition bind_mentions (kind : string) (mk : Entity → value)
    (mentioned : list Entity)
    (acc : gmap pystr value * list (pystr * pystr))
    : gmap pystr value * list (pystr * pystr) :=
  fold_left
    (λ '(arg_dict, convertables) '(index, e),
       (<[mention_name kind index := mk e]> arg_dict,
        dict_set (ent_mention e) (mention_name kind index) convertables))
    (imap (λ index e, (index, e)) mentioned)
    acc.

Definition jsk_python_get_convertables (ctx : Context)
    : M (gmap pystr value * list (pystr * pystr)) :=
  w <- get ;;
  let arg_dict := get_var_dict_from_ctx X ctx (SCOPE_PREFIX X) in
  let arg_dict := <[py "_" := last_result w]> arg_dict in
  ret (bind_mentions "role" VRole (msg_role_mentions (ctx_message ctx))
         (bind_mentions "channel" VChannel
            (msg_channel_mentions (ctx_message ctx))
            (bind_mentions "user" VUser (msg_mentions (ctx_message ctx))
               (arg_dict, [])))).

(** ** The executor and the sender *)

(** The registered substitutions, applied to the source text in the order
    of the table. *)
Definition substitute (convertables : list (pystr * pystr)) (source : pystr) : pystr :=
  fold_left (λ code '(key, name), PyStr.replace key name code)
            convertables source.

(** Modelled from the spec: the parse step of [AsyncCodeExecutor]
    ([jishaku.repl] is not among the sources).  "If the raw source text
    fails to parse as-is" the registered substitutions are "applied to
    source text before a second parse attempt"; [None] is a source that
    does not parse even then. *)
Definition parse (source : pystr)
    (convertables : option (list (pystr * pystr))) : option Code :=
  match compile X source with
  | Some code => Some code
  | None =>
      match convertables with
      | None | Some [] => None
      | Some table => compile X (substitute table source)
      end
  end.

(** Modelled from the spec: the constructor of [AsyncCodeExecutor].  A
    source that does not parse is a parse failure; otherwise the executor
    injects the argument bindings into the Scope before the run. *)
Definition AsyncCodeExecutor (source : pystr) (sc : loc)
    (arg_dict : gmap pystr value)
    (convertables : option (list (pystr * pystr))) : M Code :=
  emit (ExecutorCreated source sc arg_dict convertables) ;;
  match parse source convertables with
  | Some code => update sc arg_dict ;; ret code
  | None => raise SyntaxError
  end.

(** Modelled from the spec: [async for send, result in AsyncSender(executor)]
    ([jishaku.functools] is not among the sources).  The executor runs the
    unit against the Scope up to its next result; the loop body gets the
    result and answers with what it passed to [send], if it called it;
    "if the consumer supplies a value, it is threaded back as the
    resumption value of the underlying suspension point" and becomes "the
    new value of the reserved last result binding for the next top-level
    expression"; "if the consumer supplies nothing, resumption proceeds
    with no value". *)
Fixpoint async_for (sc : loc) (body : value → M (option value)) (code : Code) : M unit :=
  match code with
  | Emit result resume =>
      sent <- body result ;;
      match sent with
      | Some v => assign sc (py "_") v
      | None => ret tt
      end ;;
      async_for sc body (resume sent)
  | Bind name v next => assign sc name v ;; async_for sc body next
  | Read name next =>
      w <- get ;; async_for sc body (next (scope_lookup w sc name))
  | Wait next => await_point ;; async_for sc body next
  | Fail e => raise e
  | Finish => ret tt
  end.

(** [deque.remove(x)] where [x] is in the deque; nothing changes where it
    is not. *)
Fixpoint remove_first (t : CommandTask) (ts : list CommandTask) : list CommandTask :=
  match ts with
  | [] => []
  | t' :: ts' => if decide (t = t') then ts' else t' :: remove_first t ts'
  end.

(** Modelled from the spec: [with self.submit(ctx)] ([Feature.submit] is in
    [jishaku.features.baseclass], not among the sources).  The registry
    "assigns each top-level invocation a stable index at start"; the task
    is "removed on natural completion or explicit cancellation", and
    "removing an already-removed index is a no-op". *)
Definition submit {A} (ctx : Context) (body : M A) : M A :=
  w <- get ;;
  let index := (task_count w + 1)%Z in
  let cmdtask :=
    {| task_index := index; task_ctx := ctx; task_handle := Z.to_nat index |} in
  modify (λ w, with_tasks (tasks w ++ [cmdtask]) (with_task_count index w)) ;;
  try_finally body
    (modify (λ w, with_tasks (remove_first cmdtask (tasks w)) w)).

(** [async with ReplResponseReactor(...)].  [jishaku.exception_handling]
    is not among the sources and the spec leaves what it does to the
    presentation layer, so the exceptions that its exit handles itself are
    a parameter, [reactor_handles]: such an exception of the block ends
    there, any other goes on.  Entering and leaving are wait points. *)
Definition ReplResponseReactor (body : M unit) : M unit :=
  await_point ;;
  λ w, match body w with
       | (Ok _, w1) => await_point w1
       | (Raised e, w1) =>
           if reactor_handles X e then await_point w1 else (Raised e, w1)
       end.

(** ** The commands that execute code *)

(** The body of the [async for] of [jsk_python] and of [jsk_repl]. *)
Definition python_body (ctx : Context) (result : value) : M (option value) :=
  match result with
  | VNone => ret None                                   (* continue *)
  | _ =>
      modify (with_last_result result) ;;
      sent <- jsk_python_result_handling ctx result ;;
      ret (Some sent)
  end.

Definition jsk_python (ctx : Context) (argument : Codeblock) : M unit :=
  w <- get ;;
  let arg_dict := get_var_dict_from_ctx X ctx (SCOPE_PREFIX X) in
  let arg_dict := <[py "_" := last_result w]> arg_dict in
  sc <- scope ;;
  try_finally
    (ReplResponseReactor
       (submit ctx
          (executor <- AsyncCodeExecutor (content argument) sc arg_dict None ;;
           async_for sc (python_body ctx) executor)))
    (clear_intersection sc arg_dict).

(** [header], as [jsk_python_inspect] builds it from the result. *)
Definition inspect_header (result : value) : pystr :=
  let header :=
    PyStr.replace (bot_token X) (py "[token omitted]")
      (PyStr.replace (py "``") (py "`" ++ [8203%N] ++ py "`") (repr X result)) in
  if 485 <? length header then take 482 header ++ py "..." else header.

Definition inspect_text (result : value) : pystr :=
  let lines :=
    [py "=== " ++ inspect_header result ++ py " ==="; []]
    ++ ((λ '(name, res), PyStr.format_16_16 name ++ py " :: " ++ res)
          <$> all_inspections X result) in
  PyStr.join [10%N] lines.

(** The body of the [async for] of [jsk_python_inspect]. *)
Definition inspect_body (ctx : Context) (result : value) : M (option value) :=
  modify (with_last_result result) ;;
  let text := inspect_text result in
  if use_file_check X ctx (length text) then
    match PyStr.encode_utf8 text with
    | Some bytes =>
        sent <- ctx_send ctx
          (Upload {| file_name := py "inspection.prolog"; file_bytes := bytes |}) ;;
        ret (Some sent)
    | None => raise UnicodeEncodeError
    end
  else
    let paginator :=
      add_line (WrappedPaginator (py "```prolog") None 1985) text in
    let interface :=
      {| if_paginator := paginator; if_owner := ctx_author ctx |} in
    sent <- send_to interface ctx ;;
    ret (Some sent).

Definition jsk_python_inspect (ctx : Context) (argument : Codeblock) : M unit :=
  w <- get ;;
  let arg_dict := get_var_dict_from_ctx X ctx (SCOPE_PREFIX X) in
  let arg_dict := <[py "_" := last_result w]> arg_dict in
  sc <- scope ;;
  try_finally
    (ReplResponseReactor
       (submit ctx
          (executor <- AsyncCodeExecutor (content argument) sc arg_dict None ;;
           async_for sc (inspect_body ctx) executor)))
    (clear_intersection sc arg_dict).

(** ** The interactive session *)

(** [timeout=10.0 * 60.0], in seconds *)
Definition REPL_TIMEOUT : Q := 10 * 60.

(** The chat as the session meets it: each message with the seconds that
    pass before it arrives, counted from the start of the wait in progress
    or from the message before it.  After the last one nothing arrives. *)
Record Incoming := { delay : Q; message : Message }.

(** [check], the filter that [jsk_repl] hands to [wait_for]. *)
Definition check (ctx : Context) (m : Message) : bool :=
  bool_decide (msg_author m = ctx_author ctx)
  && bool_decide (msg_channel m = ctx_channel ctx)
  && (if NO_REPL_PREFX X then true
      else PyStr.startswith (py "$") (msg_content m)).

(** [bot.wait_for("message", check=..., timeout=...)]: the first message
    that passes the check, if it arrives before [timeout] seconds have
    passed; [None] is [asyncio.TimeoutError]. *)
Fixpoint wait_for (check : Message → bool) (timeout : Q) (stream : list Incoming)
    : option (Message * list Incoming) :=
  match stream with
  | [] => None
  | i :: rest =>
      if Qle_bool (delay i) timeout then
        if check (message i) then Some (message i, rest)
        else wait_for check (timeout - delay i)%Q rest
      else None
  end.

(** [self.repl_sessions.remove(x)]: [KeyError] when [x] is not in the set. *)
Definition repl_sessions_remove (channel : Z) : M unit :=
  w <- get ;;
  if decide (channel ∈ repl_sessions w)
  then modify (with_repl_sessions (repl_sessions w ∖ {[channel]}))
  else raise KeyError.

(** The two places of the loop that leave the session: [Exiting...], then
    the marker of the channel is removed. *)
Definition repl_exit (ctx : Context) : M unit :=
  ctx_send ctx (Text (py "Exiting...")) ;;
  repl_sessions_remove (ctx_channel ctx).

(** The [try ... finally] at the end of the loop body. *)
Definition repl_execute (ctx : Context) (sc : loc)
    (arg_dict : gmap pystr value) (convertables : list (pystr * pystr))
    (argument : Codeblock) : M unit :=
  try_finally
    (ReplResponseReactor
       (submit ctx
          (executor <- AsyncCodeExecutor (content argument) sc arg_dict
                         (Some convertables) ;;
           async_for sc (python_body ctx) executor)))
    (clear_intersection sc arg_dict).

(** The loop body from [argument = codeblock_converter(response.content)]
    on; [again] is the next pass of the loop, with [arg_dict] as this pass
    leaves it. *)
Definition repl_respond (ctx : Context) (sc : loc)
    (convertables : list (pystr * pystr)) (arg_dict : gmap pystr value)
    (response : Message) (again : gmap pystr value → M unit) : M unit :=
  let argument := codeblock_converter X (msg_content response) in
  if bool_decide (content argument ∈ [py "ext()"; py "quit()"]) then
    repl_exit ctx                                             (* return *)
  else if bool_decide (content argument ∈ [py "exit"; py "quit"]) then
    ctx_send ctx
      (Text (py "Use `" ++ content argument ++ py "()` to exit.")) ;;
    again arg_dict                                            (* continue *)
  else
    let arg_dict := <[py "message" := VMessage response]> arg_dict in
    let arg_dict := <[py "msg" := VMessage response]> arg_dict in
    repl_execute ctx sc arg_dict convertables argument ;;
    again arg_dict.

(** [response = await self.bot.wait_for(...)] and what the loop does with
    its outcome: this is [wait_for] read off the stream, with the rest of
    the loop body in place of its result ([repl_wait_unfold] below).
    [loop] is the next pass on the messages still to come. *)
Section Wait.

Variable loop : list Incoming → gmap pystr value → M unit.
Variable ctx : Context.
Variable sc : loc.
Variable convertables : list (pystr * pystr).
Variable arg_dict : gmap pystr value.

Fixpoint repl_wait (timeout : Q) (stream : list Incoming) : M unit :=
  match stream with
  | [] => repl_exit ctx                                       (* break *)
  | i :: rest =>
      if Qle_bool (delay i) timeout then
        if check ctx (message i) then
          repl_respond ctx sc convertables arg_dict (message i) (loop rest)
        else repl_wait (timeout - delay i)%Q rest
      else repl_exit ctx                                      (* break *)
  end.

End Wait.

(** [while True: ...].  The wait is a wait point; [except
    asyncio.TimeoutError] takes a [TimeoutError] however it comes out of
    the wait. *)
Fixpoint repl_loop (ctx : Context) (sc : loc)
    (convertables : list (pystr * pystr)) (stream : list Incoming)
    (arg_dict : gmap pystr value) {struct stream} : M unit :=
  λ w,
    match await_point w with
    | (Raised TimeoutError, w1) => repl_exit ctx w1           (* break *)
    | (Raised e, w1) => (Raised e, w1)
    | (Ok _, w1) =>
        repl_wait (repl_loop ctx sc convertables) ctx sc convertables
          arg_dict REPL_TIMEOUT stream w1
    end.

(** [redbot.core.utils.chat_formatting.box] *)
Definition box (text lang : pystr) : pystr :=
  py "```" ++ lang ++ [10%N] ++ text ++ [10%N] ++ py "```".

Definition jsk_repl (ctx : Context) (stream : list Incoming) : M unit :=
  r <- jsk_python_get_convertables ctx ;;
  let '(arg_dict, convertables) := r in
  sc <- scope ;;
  w <- get ;;
  if decide (ctx_channel ctx ∈ repl_sessions w) then
    ctx_send ctx (Text (py
      "Already running an interactive shell in this channel. Use `exit()` or `quit()` or exit.")) ;;
    ret tt
  else
    let banner :=
      py "Python " ++ PyStr.first_line (sys_version X) ++ py " on "
      ++ sys_platform X ++ [10%N] in
    modify (λ w, with_repl_sessions ({[ctx_channel ctx]} ∪ repl_sessions w) w) ;;
    ctx_send ctx (Text (box banner (py "py"))) ;;
    repl_loop ctx sc convertables stream arg_dict.

(** ** The cancel command *)

(** [index: typing.Union[int, str]] *)
Inductive IndexArg :=
| IndexInt (i : Z)
| IndexStr (s : pystr).

(** [discord.utils.get(self.tasks, index=index)]: the first task with
    that index. *)
Definition utils_get (index : Z) (ts : list CommandTask) : option CommandTask :=
  find (λ t, bool_decide (task_index t = index)) ts.

(** [task.task.cancel()]: the request is noted on the handle; the task is
    interrupted at its next wait point. *)
Definition cancel (t : CommandTask) : M unit :=
  emit (CancelRequested (task_handle t)).

Fixpoint cancel_each (ts : list CommandTask) : M unit :=
  match ts with
  | [] => ret tt
  | t :: ts' => cancel t ;; cancel_each ts'
  end.

Definition cancelled_text (t : CommandTask) : pystr :=
  py "Cancelled task " ++ PyStr.of_int (task_index t) ++ py ": `"
  ++ ctx_command (task_ctx t) ++ py "`, invoked at "
  ++ ctx_created_at (task_ctx t) ++ py " UTC".

Definition jsk_cancel (ctx : Context) (index : IndexArg) : M value :=
  w <- get ;;
  match tasks w with
  | [] => ctx_send ctx (Text (py "No tasks to cancel."))
  | _ :: _ =>
      match index with
      | IndexStr s =>
          if decide (s = py "~") then
            let task_count := length (tasks w) in
            cancel_each (tasks w) ;;
            modify (with_tasks []) ;;
            ctx_send ctx
              (Text (py "Cancelled " ++ PyStr.of_int (Z.of_nat task_count)
                     ++ py " tasks."))
          else
            raise (BadArgument
                     (py "Literal for " ++ [34%N] ++ py "index" ++ [34%N]
                      ++ py " not recognized."))
      | IndexInt i =>
          if decide (i = (-1)%Z) then
            match last (tasks w) with
            | Some task =>
                modify (with_tasks (removelast (tasks w))) ;;   (* pop() *)
                cancel task ;;
                ctx_send ctx (Text (cancelled_text task))
            | None => raise IndexError       (* pop from an empty deque *)
            end
          else
            match utils_get i (tasks w) with
            | Some task =>
                modify (λ w, with_tasks (remove_first task (tasks w)) w) ;;
                cancel task ;;
                ctx_send ctx (Text (cancelled_text task))
            | None => ctx_send ctx (Text (py "Unknown task."))
            end
      end
  end.

End Commands.

(** * The commands that execute no code

    [jsk_disassemble] and [jsk_ast] of [PythonFeature], and [jsk_hide],
    [jsk_show] and [jsk_tasks] of [RootCommand]. *)

(** What these commands import, beside [Externals]. *)
Record Tools := {
  (* jishaku.flags.Flags.use_ansi *)
  use_ansi : Context → bool;
  (* jishaku.repl.disassemble: the lines of the disassembly, or the
     exception of a source that it cannot compile *)
  disassemble : pystr → gmap pystr value → outcome (list pystr);
  (* jishaku.repl.create_tree: the tree as text, or the exception of a
     source that it cannot parse *)
  create_tree : pystr → bool → outcome pystr
}.

(** [RuntimeError], one of the other exceptions. *)
Definition RuntimeError : exn := HostError 0.

(** [commands.Paginator(max_size=...)] of the chat library, with the
    prefix and the suffix that it has when none is given. *)
Definition commands_Paginator (max_size : nat) : Paginator :=
  {| pg_prefix := py "```"; pg_suffix := Some (py "```");
     pg_max_size := max_size; pg_lines := [] |}.

(** [commands.Paginator.add_line]: a line that is longer than a page has
    room for ([max_size] less the prefix, the suffix and two line breaks)
    is a [RuntimeError]. *)
Definition Paginator_add_line (p : Paginator) (line : pystr) : outcome Paginator :=
  let max_page_size :=
    (Z.of_nat (pg_max_size p) - Z.of_nat (length (pg_prefix p))
     - Z.of_nat (length (default [] (pg_suffix p))) - 2)%Z in
  if (max_page_size <? Z.of_nat (length line))%Z then Raised RuntimeError
  else Ok (add_line p line).

(** The value of an expression that may raise. *)
Definition lift {A} (o : outcome A) : M A :=
  match o with
  | Ok a => ret a
  | Raised e => raise e
  end.

(** [self.jsk.hidden], beside the state of the features. *)
Record Root := { hidden : bool; feature : World }.

(** A coroutine of the features, run in a [Root]. *)
Definition in_feature {A} (m : M A) (r : Root) : outcome A * Root :=
  let '(o, w) := m (feature r) in (o, {| hidden := hidden r; feature := w |}).

Section Others.

Variable X : Externals.
Variable Y : Tools.

Definition jsk_disassemble (ctx : Context) (argument : Codeblock) : M unit :=
  let arg_dict := get_var_dict_from_ctx X ctx (SCOPE_PREFIX X) in
  ReplResponseReactor X
    (lines <- lift (disassemble Y (content argument) arg_dict) ;;
     let text := PyStr.join [10%N] lines in
     if use_file_check X ctx (length text) then
       match PyStr.encode_utf8 text with
       | Some bytes =>
           ctx_send X ctx
             (Upload {| file_name := py "dis.py"; file_bytes := bytes |}) ;;
           ret tt
       | None => raise UnicodeEncodeError
       end
     else
       let paginator := add_line (WrappedPaginator (py "```py") None 1985) text in
       let interface :=
         {| if_paginator := paginator; if_owner := ctx_author ctx |} in
       send_to X interface ctx ;;
       ret tt).

Definition jsk_ast (ctx : Context) (argument : Codeblock) : M unit :=
  ReplResponseReactor X
    (text <- lift (create_tree Y (content argument) (use_ansi Y ctx)) ;;
     match PyStr.encode_utf8 text with
     | Some bytes =>
         ctx_send X ctx
           (Upload {| file_name := py "ast.ansi"; file_bytes := bytes |}) ;;
         ret tt
     | None => raise UnicodeEncodeError
     end).

(** [jsk_hide]: the answer of the first branch is returned, the second
    branch returns [None]. *)
Definition jsk_hide (ctx : Context) (r : Root) : outcome value * Root :=
  if hidden r then
    in_feature (ctx_send X ctx (Text (py "Jishaku is already hidden."))) r
  else
    in_feature
      (ctx_send X ctx (Text (py "Jishaku is now hidden.")) ;; ret VNone)
      {| hidden := true; feature := feature r |}.

Definition jsk_show (ctx : Context) (r : Root) : outcome value * Root :=
  if negb (hidden r) then
    in_feature (ctx_send X ctx (Text (py "Jishaku is already visible."))) r
  else
    in_feature
      (ctx_send X ctx (Text (py "Jishaku is now visible.")) ;; ret VNone)
      {| hidden := false; feature := feature r |}.

(** The line of [jsk_tasks] for a task. *)
Definition task_line (t : CommandTask) : pystr :=
  PyStr.of_int (task_index t) ++ py ": `" ++ ctx_command (task_ctx t)
  ++ py "`, invoked at " ++ ctx_created_at (task_ctx t) ++ py " UTC".

(** [for task in self.tasks: paginator.add_line(...)] *)
Fixpoint add_task_lines (p : Paginator) (ts : list CommandTask) : M Paginator :=
  match ts with
  | [] => ret p
  | t :: ts' =>
      p' <- lift (Paginator_add_line p (task_line t)) ;;
      add_task_lines p' ts'
  end.

Definition jsk_tasks (ctx : Context) : M value :=
  w <- get ;;
  match tasks w with
  | [] => ctx_send X ctx (Text (py "No currently running tasks."))
  | _ :: _ =>
      paginator <- add_task_lines (commands_Paginator 1985) (tasks w) ;;
      let interface :=
        {| if_paginator := paginator; if_owner := ctx_author ctx |} in
      send_to X interface ctx
  end.

End Others.

(** * The vocabulary of the properties *)

(** What [self.scope] evaluates to in [w]. *)
Definition scope_of (w : World) : loc :=
  if retain w then _scope w else fresh (dom (heap w)).

(** The argument dict that [jsk_python] and [jsk_python_inspect] build. *)
Definition invocation_arg_dict (X : Externals) (ctx : Context) (w : World)
    : gmap pystr value :=
  <[py "_" := last_result w]> (get_var_dict_from_ctx X ctx (SCOPE_PREFIX X)).

(** [arg_dict] after [arg_dict["message"] = arg_dict["msg"] = response]. *)
Definition with_response (response : Message) (arg_dict : gmap pystr value)
    : gmap pystr value :=
  <[py "msg" := VMessage response]>
    (<[py "message" := VMessage response]> arg_dict).

(** A coroutine takes every state to one that [R] relates to it. *)
Definition keeps (R : World → World → Prop) {A} (m : M A) : Prop :=
  ∀ w, R w (m w).2.

Definition is_Sent (e : Event) : Prop :=
  match e with Sent _ _ => True | _ => False end.

Definition is_ExecutorCreated (e : Event) : Prop :=
  match e with ExecutorCreated _ _ _ _ => True | _ => False end.

(** Reading the events from the newest to the oldest: every executor that
    was made for a Scope and an argument dict is followed, before the next
    executor is made, by [clear_intersection] on that Scope with that
    argument dict.  [cleared] is the last [clear_intersection] met so far. *)
Fixpoint all_cleared (cleared : option (loc * gmap pystr value))
    (evs : list Event) : Prop :=
  match evs with
  | [] => True
  | ClearIntersection sc arg_dict :: older =>
      all_cleared (Some (sc, arg_dict)) older
  | ExecutorCreated _ sc arg_dict _ :: older =>
      cleared = Some (sc, arg_dict) ∧ all_cleared None older
  | _ :: older => all_cleared cleared older
  end.

(** Only something sent to the chat was added to the events. *)
Definition quietly (w w' : World) : Prop :=
  ∃ sends, events w' = sends ++ events w ∧ Forall is_Sent sends.

(** The events that were added are [all_cleared]. *)
Definition tidily (w w' : World) : Prop :=
  ∃ new, events w' = new ++ events w ∧ all_cleared None new.

(** [clear_intersection] on [sc] with [arg_dict] was the last thing done,
    and no name of [arg_dict] is bound in [sc]. *)
Definition cleaned_up (sc : loc) (arg_dict : gmap pystr value) (w' : World) : Prop :=
  (∃ older, events w' = ClearIntersection sc arg_dict :: older)
  ∧ (∀ name, is_Some (arg_dict !! name) → scope_lookup w' sc name = None).

(** In [w'] retention is on and the stored Scope is an object that did not
    exist in [w], has no bindings, and is what the [scope] property gives. *)
Definition installs_new_Scope (w w' : World) : Prop :=
  retain w' = true
  ∧ heap w !! _scope w' = None
  ∧ heap w' !! _scope w' = Some empty_Scope
  ∧ (∀ name, scope_lookup w' (_scope w') name = None)
  ∧ scope w' = (Ok (_scope w'), w').

(** A loop body passes over [None]: nothing is sent, nothing is stored,
    nothing is raised, and no value goes back to the executor. *)
Definition skips_None (body : value → M (option value)) : Prop :=
  ∀ w, body VNone w = (Ok None, w).

(** No wait point among the next [n] has an exception thrown in. *)
Definition undisturbed (n : nat) (w : World) : Prop :=
  Forall (λ f, f = None) (take n (faults w)).

(** Only the outside (the chat, the wait points) has changed. *)
Definition same_feature (w w' : World) : Prop :=
  last_result w' = last_result w ∧ repl_sessions w' = repl_sessions w
  ∧ retain w' = retain w ∧ _scope w' = _scope w ∧ heap w' = heap w
  ∧ tasks w' = tasks w ∧ task_count w' = task_count w.

(** The session markers, the retention flag and the stored Scope are as
    they were, and no Scope object has gone. *)
Definition same_session (w w' : World) : Prop :=
  repl_sessions w' = repl_sessions w ∧ retain w' = retain w
  ∧ _scope w' = _scope w ∧ dom (heap w) ⊆ dom (heap w').

(** The retention flag and the stored Scope are as they were, and no
    Scope object has gone. *)
Definition same_retention (w w' : World) : Prop :=
  retain w' = retain w ∧ _scope w' = _scope w
  ∧ dom (heap w) ⊆ dom (heap w').

(** [l] is a Scope object that exists and is not the stored Scope of a
    feature with retention on. *)
Definition put_aside (l : loc) (w : World) : Prop :=
  l ∈ dom (heap w) ∧ (retain w = true → _scope w ≠ l).

(** Every result that the code produces is [None]. *)
Inductive only_None : Code → Prop :=
| only_None_Emit resume :
    (∀ sent, only_None (resume sent)) → only_None (Emit VNone resume)
| only_None_Bind name v next :
    only_None next → only_None (Bind name v next)
| only_None_Read name next :
    (∀ v, only_None (next v)) → only_None (Read name next)
| only_None_Wait next : only_None next → only_None (Wait next)
| only_None_Fail e : only_None (Fail e)
| only_None_Finish : only_None Finish.

(** Nothing was sent to the chat and the stored last result is as it was. *)
Definition silently (w w' : World) : Prop :=
  last_result w' = last_result w
  ∧ ∃ new, events w' = new ++ events w ∧ Forall (λ e, ¬ is_Sent e) new.

(** The source, read with the given substitutions, produces only [None]. *)
Definition produces_only_None (X : Externals) (source : pystr)
    (convertables : option (list (pystr * pystr))) : Prop :=
  ∀ code, parse X source convertables = Some code → only_None code.

(** What [jsk_python_inspect] sends for a result. *)
Definition inspect_payload (X : Externals) (ctx : Context) (result : value)
    : option Payload :=
  let text := inspect_text X result in
  if use_file_check X ctx (length text) then
    bytes ← PyStr.encode_utf8 text;
    Some (Upload {| file_name := py "inspection.prolog"; file_bytes := bytes |})
  else
    Some (Pages
            {| if_paginator :=
                 add_line (WrappedPaginator (py "```prolog") None 1985) text;
               if_owner := ctx_author ctx |}).

(** The results that [jsk_python_result_handling] sends as text. *)
Definition textual (result : value) : Prop :=
  match result with
  | VMessage _ | VFile _ | VEmbed _ | VPaginatorInterface _ => False
  | _ => True
  end.

(** The paginator that takes a long text. *)
Definition output_pages (ctx : Context) (text : pystr) : Interface :=
  {| if_paginator :=
       add_line (WrappedPaginator (py "```py") (Some (py "```")) 1985) text;
     if_owner := ctx_author ctx |}.

(** No task of the registry has the index [i]. *)
Definition no_such_task (i : Z) (ts : list CommandTask) : Prop :=
  ∀ t, t ∈ ts → task_index t ≠ i.

(** The commands of this development, as the chat invokes them. *)
Inductive Command :=
| Retain (ctx : Context) (toggle : option bool)
| Python (ctx : Context) (argument : Codeblock)
| Inspect (ctx : Context) (argument : Codeblock)
| Repl (ctx : Context) (stream : list Incoming)
| Cancel (ctx : Context) (index : IndexArg).

Definition run_command (X : Externals) (w : World) (c : Command) : World :=
  match c with
  | Retain ctx toggle => (jsk_retain X ctx toggle w).2
  | Python ctx argument => (jsk_python X ctx argument w).2
  | Inspect ctx argument => (jsk_python_inspect X ctx argument w).2
  | Repl ctx stream => (jsk_repl X ctx stream w).2
  | Cancel ctx index => (jsk_cancel X ctx index w).2
  end.

Definition run_commands (X : Externals) (cs : list Command) (w : World) : World :=
  fold_left (run_command X) cs w.

(** The [mention] token of a value that is a user, a channel or a role. *)
Definition value_mention (v : value) : option pystr :=
  match v with
  | VUser e | VChannel e | VRole e => Some (ent_mention e)
  | _ => None
  end.

(** Everything that the message of an invocation mentions. *)
Definition mentioned (ctx : Context) : list Entity :=
  msg_mentions (ctx_message ctx) ++ msg_channel_mentions (ctx_message ctx)
  ++ msg_role_mentions (ctx_message ctx).

(** The names that [jsk_python_get_convertables] makes up. *)
Definition is_mention_name (n : pystr) : Prop :=
  ∃ kind index, kind ∈ ["user"; "channel"; "role"] ∧ n = mention_name kind index.

(** What the loops of [jsk_python_get_convertables] keep true of the
    argument dict and the table: the tokens of the table are distinct and
    are the [covered] ones, and every entry has one of the [names] as its
    target, bound to something whose mention is the entry's token. *)
Definition table_ok (names covered : pystr → Prop)
    (acc : gmap pystr value * list (pystr * pystr)) : Prop :=
  NoDup acc.2.*1
  ∧ (∀ m, m ∈ acc.2.*1 ↔ covered m)
  ∧ (∀ m n, (m, n) ∈ acc.2 →
       names n ∧ ∃ v, acc.1 !! n = Some v ∧ value_mention v = Some m).

(** The stored last result is as it was, or is a result other than [None]. *)
Definition stores_no_None (w w' : World) : Prop :=
  last_result w' = last_result w ∨ last_result w' ≠ VNone.

(** The handles whose cancellation the events request, the oldest first. *)
Definition cancel_requests (new : list Event) : list nat :=
  omap (λ e, match e with CancelRequested h => Some h | _ => None end)
       (rev new).

(** The attributes of [PythonFeature] are as they were. *)
Definition same_python_feature (w w' : World) : Prop :=
  last_result w' = last_result w ∧ repl_sessions w' = repl_sessions w
  ∧ retain w' = retain w ∧ _scope w' = _scope w ∧ heap w' = heap w.

(** Only events that [P] holds of were added. *)
Definition adds_only (P : Event → Prop) (w w' : World) : Prop :=
  ∃ new, events w' = new ++ events w ∧ Forall P new.

(** The results that [jsk_python_result_handling] answers without calling
    [repr] and without filling a paginator: a message, a file, an embed, a
    paginator interface, and a [str] that is short or is to go out as a
    file. *)
Definition answered_directly (X : Externals) (ctx : Context) (result : value)
    : Prop :=
  match result with
  | VMessage _ | VFile _ | VEmbed _ | VPaginatorInterface _ => True
  | VStr s => length s ≤ 2000 ∨ use_file_check X ctx (length s) = true
  | _ => False
  end.

(** One message to [channel] was added to the events, or none. *)
Definition at_most_one_message (channel : Z) (w w' : World) : Prop :=
  events w' = events w ∨ ∃ p, events w' = Sent channel p :: events w.

(** [d] is [d0] but for [message] and [msg]. *)
Definition but_for_the_response (d d0 : gmap pystr value) : Prop :=
  ∀ k, k ≠ py "message" → k ≠ py "msg" → d !! k = d0 !! k.

(** What a session that was started by [ctx] in the state [w], and that
    meets [stream], may hand to an executor: the content of a message of
    the stream that passes the check, on the Scope that the [scope]
    property gave at the start, with the table of the start and with the
    argument dict of the start in which [message] and [msg] are that
    message. *)
Definition of_the_session (X : Externals) (ctx : Context) (w : World)
    (stream : list Incoming) (e : Event) : Prop :=
  match e with
  | ExecutorCreated source sc arg_dict convertables =>
      ∃ arg_dict0 table response,
        jsk_python_get_convertables X ctx w = (Ok (arg_dict0, table), w)
        ∧ response ∈ message <$> stream
        ∧ check X ctx response = true
        ∧ source = content (codeblock_converter X (msg_content response))
        ∧ sc = scope_of w
        ∧ arg_dict = with_response response arg_dict0
        ∧ convertables = Some table
  | _ => True
  end.

(** A page of [commands.Paginator(max_size=1985)] has room for a line of
    this many characters. *)
Definition TASK_LINE_ROOM : nat := 1977.

(** ** A small host

    A host that knows a handful of sources, to run the commands on. *)

Definition demo_compile (source : pystr) : option Code :=
  if decide (source = py "1+1") then Some (Emit (VInt 2) (λ _, Finish))
  else if decide (source = py "None") then Some (Emit VNone (λ _, Finish))
  else if decide (source = py "x = 5") then
    Some (Bind (py "x") (VInt 5) Finish)
  else if decide (source = py "1; seen = _") then
    Some (Emit (VInt 1)
            (λ _, Read (py "_")
                    (λ v, Bind (py "seen") (default VNone v) Finish)))
  else if decide (source = py "__user_mention_0") then
    Some (Read (py "__user_mention_0")
            (λ v, match v with
                  | Some user => Emit user (λ _, Finish)
                  | None => Fail (HostError 1)          (* NameError *)
                  end))
  else if decide (source = py "raise ValueError") then
    Some (Fail (HostError 2))
  else if decide (source = py "await asyncio.sleep(1)") then
    Some (Wait Finish)
  else if decide (source = py "exit()") then
    Some (Fail (HostError 3))                           (* SystemExit *)
  else None.

Definition demo_repr (v : value) : pystr :=
  match v with
  | VNone => py "None"
  | VInt i => PyStr.of_int i
  | VUser e => py "<User id=" ++ PyStr.of_int (ent_id e) ++ py ">"
  | _ => py "<object>"
  end.

Definition demo : Externals :=
  {| SCOPE_PREFIX := py "_";
     RETAIN := true;
     NO_REPL_PREFX := true;
     bot_token := py "TOKEN";
     bot_id := 1;
     repr := demo_repr;
     compile := demo_compile;
     sys_version := py "3.11.4 (main)"; sys_platform := py "linux";
     jump_url := λ m, py "https://discord.com/channels/" ++ PyStr.of_int (msg_id m);
     get_var_dict_from_ctx :=
       λ ctx prefix, {[ prefix ++ py "author" := VInt (ctx_author ctx) ]};
     all_inspections := λ v, [(py "Type", py "NoneType")];
     codeblock_converter := λ s, {| cb_language := None; content := s |};
     use_file_check := λ ctx n, (N.of_nat n <? 50000)%N;
     send_to_result := VPaginatorInterface;
     reactor_handles := λ e, bool_decide (e = SyntaxError) |}.

Definition demo_user : Entity := {| ent_id := 77; ent_mention := py "<@77>" |}.

(** The message [jsk py <@77>] of user 5 in channel 9. *)
Definition demo_message : Message :=
  {| msg_id := 100; msg_author := 5; msg_channel := 9;
     msg_content := py "jsk py <@77>";
     msg_mentions := [demo_user]; msg_channel_mentions := [];
     msg_role_mentions := [] |}.

Definition demo_ctx : Context :=
  {| ctx_author := 5; ctx_channel := 9; ctx_message := demo_message;
     ctx_command := py "jsk py"; ctx_created_at := py "2021-01-01 00:00:00" |}.

Definition codeblock (source : string) : Codeblock :=
  {| cb_language := None; content := py source |}.

(** A message of user 5 in channel 9, [seconds] after the one before. *)
Definition reply (seconds : Q) (text : string) : Incoming :=
  {| delay := seconds;
     message :=
       {| msg_id := 101; msg_author := 5; msg_channel := 9;
          msg_content := py text; msg_mentions := [];
          msg_channel_mentions := []; msg_role_mentions := [] |} |}.

Definition demo_world : World := PythonFeature_init demo.

(** A host like [demo], with the token and the prefix flag as given. *)
Definition demo_with (token : pystr) (no_repl_prefix : bool) : Externals :=
  {| SCOPE_PREFIX := SCOPE_PREFIX demo;
     RETAIN := RETAIN demo;
     NO_REPL_PREFX := no_repl_prefix;
     bot_token := token;
     bot_id := bot_id demo;
     repr := repr demo;
     compile := compile demo;
     sys_version := sys_version demo; sys_platform := sys_platform demo;
     jump_url := jump_url demo;
     get_var_dict_from_ctx := get_var_dict_from_ctx demo;
     all_inspections := all_inspections demo;
     codeblock_converter := codeblock_converter demo;
     use_file_check := use_file_check demo;
     send_to_result := send_to_result demo;
     reactor_handles := reactor_handles demo |}.

(** Tools that know one source. *)
Definition demo_tools : Tools :=
  {| use_ansi := λ _, false;
     disassemble := λ source _,
       if decide (source = py "1+1")
       then Ok [py "LOAD_CONST"; py "RETURN_VALUE"]
       else Raised SyntaxError;
     create_tree := λ source _,
       if decide (source = py "1+1") then Ok (py "Module")
       else Raised SyntaxError |}.

(** * Properties *)

(** ** The monad *)

Lemma await_point_cases w :
  (∃ f, await_point w = (Ok tt, with_faults f w))
  ∨ (∃ e f, await_point w = (Raised e, with_faults f w)).
Proof.
  unfold await_point. destruct w as [? ? ? ? ? ? ? ? ? [|[e|] f]]; simpl.
  - left. by exists [].
  - right. by exists e, f.
  - left. by exists f.
Qed.

Lemma scope_eval w :
  scope w =
  (Ok (scope_of w),
   if retain w then w
   else with_heap (<[scope_of w := empty_Scope]> (heap w)) w).
Proof.
  unfold scope, scope_of, bind, get, new_Scope, ret.
  by destruct (retain w).
Qed.

Lemma fresh_loc_unused (h : gmap loc Scope) : h !! fresh (dom h) = None.
Proof. apply not_elem_of_dom, is_fresh. Qed.

(** ** The session loop, one pass at a time *)

(** The wait of the loop is [wait_for] on the messages to come. *)
Lemma repl_wait_unfold X loop ctx sc convertables arg_dict timeout stream :
  repl_wait X loop ctx sc convertables arg_dict timeout stream =
  match wait_for (check X ctx) timeout stream with
  | None => repl_exit X ctx
  | Some (response, rest) =>
      repl_respond X ctx sc convertables arg_dict response (loop rest)
  end.
Proof.
  revert timeout. induction stream as [|i rest IH]; intros timeout; simpl.
  - done.
  - destruct (Qle_bool (delay i) timeout); [|done].
    destruct (check X ctx (message i)); [done|]. apply IH.
Qed.

(** One pass of [while True:], as the source has it. *)
Lemma repl_loop_unfold X ctx sc convertables stream arg_dict w :
  repl_loop X ctx sc convertables stream arg_dict w =
  match await_point w with
  | (Raised TimeoutError, w1) => repl_exit X ctx w1
  | (Raised e, w1) => (Raised e, w1)
  | (Ok _, w1) =>
      match wait_for (check X ctx) REPL_TIMEOUT stream with
      | None => repl_exit X ctx w1
      | Some (response, rest) =>
          repl_respond X ctx sc convertables arg_dict response
            (repl_loop X ctx sc convertables rest) w1
      end
  end.
Proof.
  transitivity
    (match await_point w with
     | (Raised TimeoutError, w1) => repl_exit X ctx w1
     | (Raised e, w1) => (Raised e, w1)
     | (Ok _, w1) =>
         repl_wait X (repl_loop X ctx sc convertables) ctx sc convertables
           arg_dict REPL_TIMEOUT stream w1
     end).
  { by destruct stream. }
  destruct (await_point w) as [[[]|e] w1]; [|done].
  rewrite repl_wait_unfold.
  by destruct (wait_for (check X ctx) REPL_TIMEOUT stream) as [[? ?]|].
Qed.

Lemma wait_for_shorter chk timeout stream response rest :
  wait_for chk timeout stream = Some (response, rest) →
  length rest < length stream.
Proof.
  revert timeout. induction stream as [|i s IH]; intros timeout; simpl.
  - done.
  - destruct (Qle_bool (delay i) timeout); [|done].
    destruct (chk (message i)).
    + intros [= _ ->]. lia.
    + intros H. apply IH in H. lia.
Qed.

(** ** What a coroutine leaves untouched

    [R] relates the state before a coroutine to the state after it.  The
    lemmas of this section carry any such relation that the primitive
    steps respect through the commands; [allowed] says which events the
    relation allows. *)

Section Footprint.

Variable X : Externals.
Variable R : World → World → Prop.
Variable allowed : Event → Prop.

Hypothesis R_refl : ∀ w, R w w.
Hypothesis R_trans : ∀ a b c, R a b → R b c → R a c.
Hypothesis R_faults : ∀ w f, R w (with_faults f w).
Hypothesis R_emit : ∀ w e, allowed e → R w (with_events (e :: events w) w).
Hypothesis R_next_message : ∀ w n, R w (with_next_message n w).
Hypothesis R_last_result : ∀ w v, R w (with_last_result v w).
Hypothesis R_tasks : ∀ w t, R w (with_tasks t w).
Hypothesis R_task_count : ∀ w n, R w (with_task_count n w).
Hypothesis R_alter : ∀ w f l, R w (with_heap (alter f l (heap w)) w).
Hypothesis R_alloc :
  ∀ w, R w (with_heap (<[fresh (dom (heap w)) := empty_Scope]> (heap w)) w).
Hypothesis allowed_Sent : ∀ c p, allowed (Sent c p).

Lemma keeps_ret {A} (a : A) : keeps R (ret a).
Proof. intros w. apply R_refl. Qed.

Lemma keeps_raise {A} e : keeps R (@raise A e).
Proof. intros w. apply R_refl. Qed.

Lemma keeps_get : keeps R get.
Proof. intros w. apply R_refl. Qed.

Lemma keeps_bind {A B} (m : M A) (k : A → M B) :
  keeps R m → (∀ a, keeps R (k a)) → keeps R (bind m k).
Proof.
  intros Hm Hk w. unfold bind. specialize (Hm w).
  destruct (m w) as [[a|e] w1]; simpl in *; [|done].
  eapply R_trans; [exact Hm|apply Hk].
Qed.

Lemma keeps_get_bind {A} (k : World → M A) :
  (∀ w0, keeps R (k w0)) → keeps R (bind get k).
Proof. intros Hk. apply keeps_bind; [apply keeps_get|done]. Qed.

Lemma keeps_modify f : (∀ w, R w (f w)) → keeps R (modify f).
Proof. intros Hf w. apply Hf. Qed.

Lemma keeps_try_finally {A} (body : M A) cleanup :
  keeps R body → keeps R cleanup → keeps R (try_finally body cleanup).
Proof.
  intros Hb Hc w. unfold try_finally. specialize (Hb w).
  destruct (body w) as [o w1]. specialize (Hc w1). simpl in *.
  destruct (cleanup w1) as [[?|?] w2]; simpl in *; by eapply R_trans.
Qed.

Lemma keeps_await_point : keeps R await_point.
Proof.
  intros w. destruct (await_point_cases w) as [[f ->]|[e [f ->]]];
    apply R_faults.
Qed.

Lemma keeps_emit e : allowed e → keeps R (emit e).
Proof. intros He. apply keeps_modify. intros w. by apply R_emit. Qed.

Lemma keeps_ctx_send ctx p : keeps R (ctx_send X ctx p).
Proof.
  unfold ctx_send. apply keeps_bind; [apply keeps_await_point|intros _].
  apply keeps_get_bind. intros w0.
  apply keeps_bind; [|intros; apply keeps_ret].
  apply keeps_modify. intros w.
  eapply R_trans; [apply R_emit, allowed_Sent|apply R_next_message].
Qed.

Lemma keeps_send_to i ctx : keeps R (send_to X i ctx).
Proof.
  unfold send_to. apply keeps_bind; [apply keeps_await_point|intros _].
  apply keeps_bind; [apply keeps_emit, allowed_Sent|intros; apply keeps_ret].
Qed.

Lemma keeps_jsk_python_result_handling ctx result :
  keeps R (jsk_python_result_handling X ctx result).
Proof.
  unfold jsk_python_result_handling.
  destruct result; try apply keeps_ctx_send; try apply keeps_send_to;
    repeat case_match;
    first [apply keeps_ctx_send | apply keeps_send_to | apply keeps_raise].
Qed.

Lemma keeps_python_body ctx result : keeps R (python_body X ctx result).
Proof.
  unfold python_body.
  assert (keeps R (modify (with_last_result result) ;;
                 sent <- jsk_python_result_handling X ctx result ;;
                 ret (Some sent))) as H.
  { apply keeps_bind; [apply keeps_modify; intros; apply R_last_result|].
    intros _. apply keeps_bind; [apply keeps_jsk_python_result_handling|].
    intros; apply keeps_ret. }
  destruct result; first [apply keeps_ret | exact H].
Qed.

Lemma keeps_inspect_body ctx result : keeps R (inspect_body X ctx result).
Proof.
  unfold inspect_body.
  apply keeps_bind; [apply keeps_modify; intros; apply R_last_result|].
  intros _. repeat case_match; try apply keeps_raise;
    (apply keeps_bind; [|intros; apply keeps_ret]);
    first [apply keeps_ctx_send | apply keeps_send_to].
Qed.

Lemma keeps_assign l name v : keeps R (assign l name v).
Proof. apply keeps_modify. intros w. apply R_alter. Qed.

Lemma keeps_update l d : keeps R (update l d).
Proof. apply keeps_modify. intros w. apply R_alter. Qed.

Lemma keeps_async_for sc body code :
  (∀ result, keeps R (body result)) → keeps R (async_for sc body code).
Proof.
  intros Hbody. induction code as [result resume IH|name v next IH
    |name next IH|next IH|e|]; simpl.
  - apply keeps_bind; [apply Hbody|]. intros sent.
    apply keeps_bind; [|intros; apply IH].
    destruct sent; [apply keeps_assign|apply keeps_ret].
  - apply keeps_bind; [apply keeps_assign|done].
  - apply keeps_get_bind. intros w0. apply IH.
  - apply keeps_bind; [apply keeps_await_point|done].
  - apply keeps_raise.
  - apply keeps_ret.
Qed.

Lemma keeps_submit {A} ctx (body : M A) : keeps R body → keeps R (submit ctx body).
Proof.
  intros Hb. unfold submit. apply keeps_get_bind. intros w0.
  apply keeps_bind.
  - apply keeps_modify. intros w.
    eapply R_trans; [apply R_task_count|apply R_tasks].
  - intros _. apply keeps_try_finally; [done|].
    apply keeps_modify. intros w. apply R_tasks.
Qed.

Lemma keeps_ReplResponseReactor body :
  keeps R body → keeps R (ReplResponseReactor X body).
Proof.
  intros Hb. unfold ReplResponseReactor.
  apply keeps_bind; [apply keeps_await_point|intros _].
  intros w. specialize (Hb w). destruct (body w) as [[?|e] w1]; simpl in *.
  - eapply R_trans; [exact Hb|apply keeps_await_point].
  - destruct (reactor_handles X e); [|done].
    eapply R_trans; [exact Hb|apply keeps_await_point].
Qed.

Lemma keeps_scope : keeps R scope.
Proof.
  intros w. rewrite scope_eval. simpl. unfold scope_of.
  destruct (retain w); [apply R_refl|apply R_alloc].
Qed.

Lemma keeps_AsyncCodeExecutor source sc arg_dict convertables :
  allowed (ExecutorCreated source sc arg_dict convertables) →
  keeps R (AsyncCodeExecutor X source sc arg_dict convertables).
Proof.
  intros Ha. unfold AsyncCodeExecutor.
  apply keeps_bind; [by apply keeps_emit|intros _].
  destruct (parse X source convertables); [|apply keeps_raise].
  apply keeps_bind; [apply keeps_update|intros; apply keeps_ret].
Qed.

Lemma keeps_clear_intersection sc arg_dict :
  allowed (ClearIntersection sc arg_dict) →
  keeps R (clear_intersection sc arg_dict).
Proof.
  intros Ha. unfold clear_intersection.
  apply keeps_bind; [by apply keeps_emit|intros _].
  apply keeps_modify. intros w. apply R_alter.
Qed.

(** From the making of the executor to the end of the [async for]. *)
Lemma keeps_run sc body source arg_dict convertables :
  allowed (ExecutorCreated source sc arg_dict convertables) →
  (∀ code, parse X source convertables = Some code →
           keeps R (async_for sc body code)) →
  keeps R (executor <- AsyncCodeExecutor X source sc arg_dict convertables ;;
         async_for sc body executor).
Proof.
  intros Ha Hrun w. unfold AsyncCodeExecutor, bind, emit, modify. simpl.
  destruct (parse X source convertables) as [code|] eqn:Hp; simpl.
  - eapply R_trans; [by apply R_emit|].
    eapply R_trans; [apply R_alter|]. by apply Hrun.
  - by apply R_emit.
Qed.

(** The block under [try:] of the three commands. *)
Lemma keeps_execution ctx sc body source arg_dict convertables :
  allowed (ExecutorCreated source sc arg_dict convertables) →
  (∀ code, parse X source convertables = Some code →
           keeps R (async_for sc body code)) →
  keeps R (ReplResponseReactor X
           (submit ctx
              (executor <- AsyncCodeExecutor X source sc arg_dict convertables ;;
               async_for sc body executor))).
Proof.
  intros Ha Hrun. by apply keeps_ReplResponseReactor, keeps_submit, keeps_run.
Qed.

(** The commands, for a relation that allows every event. *)

Hypothesis allowed_all : ∀ e, allowed e.

Lemma keeps_jsk_python ctx argument : keeps R (jsk_python X ctx argument).
Proof.
  unfold jsk_python. apply keeps_get_bind. intros w0.
  apply keeps_bind; [apply keeps_scope|intros sc].
  apply keeps_try_finally; [|by apply keeps_clear_intersection].
  apply keeps_execution; [done|]. intros code _.
  apply keeps_async_for, keeps_python_body.
Qed.

Lemma keeps_jsk_python_inspect ctx argument :
  keeps R (jsk_python_inspect X ctx argument).
Proof.
  unfold jsk_python_inspect. apply keeps_get_bind. intros w0.
  apply keeps_bind; [apply keeps_scope|intros sc].
  apply keeps_try_finally; [|by apply keeps_clear_intersection].
  apply keeps_execution; [done|]. intros code _.
  apply keeps_async_for, keeps_inspect_body.
Qed.

Lemma keeps_cancel_each ts : keeps R (cancel_each ts).
Proof.
  induction ts as [|t ts IH]; simpl; [apply keeps_ret|].
  apply keeps_bind; [by apply keeps_emit|done].
Qed.

Lemma keeps_jsk_cancel ctx index : keeps R (jsk_cancel X ctx index).
Proof.
  unfold jsk_cancel. apply keeps_get_bind. intros w0.
  repeat case_match;
    repeat first
      [ apply keeps_ctx_send | apply keeps_raise | apply keeps_cancel_each
      | apply keeps_modify; intros w; apply R_tasks
      | by apply keeps_emit
      | apply keeps_bind; [|intros _] ].
Qed.

(** The session, for a relation that also allows changes of
    [repl_sessions] and that the execution of one input respects. *)

Hypothesis R_repl_sessions : ∀ w s, R w (with_repl_sessions s w).
Hypothesis keeps_repl_execute :
  ∀ ctx sc arg_dict convertables argument,
    keeps R (repl_execute X ctx sc arg_dict convertables argument).

Lemma keeps_repl_exit ctx : keeps R (repl_exit X ctx).
Proof.
  unfold repl_exit. apply keeps_bind; [apply keeps_ctx_send|intros _].
  unfold repl_sessions_remove. apply keeps_get_bind. intros w0.
  case_decide; [|apply keeps_raise].
  apply keeps_modify. intros w. apply R_repl_sessions.
Qed.

Lemma keeps_repl_respond ctx sc convertables arg_dict response again :
  (∀ d, keeps R (again d)) →
  keeps R (repl_respond X ctx sc convertables arg_dict response again).
Proof.
  intros Ha. unfold repl_respond. repeat case_match.
  - apply keeps_repl_exit.
  - apply keeps_bind; [apply keeps_ctx_send|intros; apply Ha].
  - apply keeps_bind; [apply keeps_repl_execute|intros; apply Ha].
Qed.

Lemma keeps_repl_loop ctx sc convertables stream arg_dict :
  keeps R (repl_loop X ctx sc convertables stream arg_dict).
Proof.
  remember (length stream) as n eqn:Hn.
  revert stream arg_dict Hn.
  induction (lt_wf n) as [n _ IH]. intros stream arg_dict -> w.
  rewrite repl_loop_unfold.
  pose proof (keeps_await_point w) as Hw.
  destruct (await_point w) as [[[]|e] w1]; simpl in Hw.
  - destruct (wait_for (check X ctx) REPL_TIMEOUT stream)
      as [[response rest]|] eqn:Hwait.
    + eapply R_trans; [exact Hw|].
      apply keeps_repl_respond. intros d.
      eapply IH; [|done]. by eapply wait_for_shorter.
    + eapply R_trans; [exact Hw|apply keeps_repl_exit].
  - destruct e; try exact Hw.
    eapply R_trans; [exact Hw|apply keeps_repl_exit].
Qed.

Lemma keeps_jsk_repl ctx stream : keeps R (jsk_repl X ctx stream).
Proof.
  unfold jsk_repl. apply keeps_bind.
  { unfold jsk_python_get_convertables. apply keeps_get_bind.
    intros; apply keeps_ret. }
  intros [arg_dict convertables].
  apply keeps_bind; [apply keeps_scope|intros sc].
  apply keeps_get_bind. intros w0. case_decide.
  - apply keeps_bind; [apply keeps_ctx_send|intros; apply keeps_ret].
  - apply keeps_bind.
    { apply keeps_modify. intros w. apply R_repl_sessions. }
    intros _. apply keeps_bind; [apply keeps_ctx_send|intros _].
    apply keeps_repl_loop.
Qed.

End Footprint.

(** ** The relations of this development *)

Lemma all_cleared_sends cleared sends older :
  Forall is_Sent sends →
  all_cleared cleared (sends ++ older) ↔ all_cleared cleared older.
Proof.
  induction 1 as [|e sends He _ IH]; simpl; [done|].
  by destruct e.
Qed.

Lemma all_cleared_weaken cleared evs :
  all_cleared None evs → all_cleared cleared evs.
Proof.
  induction evs as [|e evs IH]; simpl; [done|].
  destruct e; try done; auto. by intros [? _].
Qed.

Lemma all_cleared_app cleared new older :
  all_cleared cleared new → all_cleared None older →
  all_cleared cleared (new ++ older).
Proof.
  revert cleared. induction new as [|e new IH]; intros cleared; simpl.
  - intros _. apply all_cleared_weaken.
  - destruct e; try apply IH. intros [-> Hn] Ho. split; [done|by apply IH].
Qed.

Lemma quietly_refl w : quietly w w.
Proof. by exists []. Qed.

Lemma quietly_trans a b c : quietly a b → quietly b c → quietly a c.
Proof.
  intros (s1 & H1 & F1) (s2 & H2 & F2). exists (s2 ++ s1).
  split; [by rewrite H2, H1, app_assoc|by apply Forall_app].
Qed.

Lemma quietly_same w w' : events w' = events w → quietly w w'.
Proof. intros H. by exists []. Qed.

Lemma quietly_emit w e : is_Sent e → quietly w (with_events (e :: events w) w).
Proof. intros He. exists [e]. split; [done|by constructor]. Qed.

Lemma tidily_refl w : tidily w w.
Proof. by exists []. Qed.

Lemma tidily_trans a b c : tidily a b → tidily b c → tidily a c.
Proof.
  intros (s1 & H1 & F1) (s2 & H2 & F2). exists (s2 ++ s1).
  split; [by rewrite H2, H1, app_assoc|by apply all_cleared_app].
Qed.

Lemma tidily_same w w' : events w' = events w → tidily w w'.
Proof. intros H. by exists []. Qed.

Lemma tidily_emit w e :
  ¬ is_ExecutorCreated e → tidily w (with_events (e :: events w) w).
Proof. intros He. exists [e]. split; [done|]. by destruct e. Qed.

Lemma quietly_tidily w w' : quietly w w' → tidily w w'.
Proof.
  intros (sends & H & F). exists sends. split; [done|].
  rewrite <- (app_nil_r sends). by apply all_cleared_sends.
Qed.

(** The side conditions of the [Footprint] lemmas, for the relations of
    this development. *)
Ltac footprint :=
  first
    [ exact quietly_refl | exact quietly_trans | exact quietly_emit
    | exact tidily_refl | exact tidily_trans | exact tidily_emit
    | by (intros; apply quietly_same)
    | by (intros; apply tidily_same)
    | by intros
    | by (intros; cbn; tauto) ].

Lemma same_feature_refl w : same_feature w w.
Proof. by repeat split. Qed.

Lemma same_feature_trans a b c :
  same_feature a b → same_feature b c → same_feature a c.
Proof.
  unfold same_feature. intros (?&?&?&?&?&?&?) (?&?&?&?&?&?&?).
  repeat split; congruence.
Qed.

Lemma same_session_refl w : same_session w w.
Proof. by repeat split. Qed.

Lemma same_session_trans a b c :
  same_session a b → same_session b c → same_session a c.
Proof.
  unfold same_session. intros (?&?&?&Hab) (?&?&?&Hbc).
  repeat split; try congruence. by transitivity (dom (heap b)).
Qed.

Lemma same_session_alter w f l :
  same_session w (with_heap (alter f l (heap w)) w).
Proof.
  repeat split; try done. simpl. by rewrite dom_alter_L.
Qed.

Lemma same_session_alloc w :
  same_session w
    (with_heap (<[fresh (dom (heap w)) := empty_Scope]> (heap w)) w).
Proof.
  repeat split; try done. simpl. rewrite dom_insert_L. set_solver.
Qed.

Ltac frame :=
  first
    [ exact same_feature_refl | exact same_feature_trans
    | exact same_session_refl | exact same_session_trans
    | exact same_session_alter | exact same_session_alloc
    | by (intros; repeat split)
    | exact (λ _, I) | exact (λ _ _, I) ].

Lemma silently_refl w : silently w w.
Proof. split; [done|]. by exists []. Qed.

Lemma silently_trans a b c : silently a b → silently b c → silently a c.
Proof.
  intros (L1 & s1 & H1 & F1) (L2 & s2 & H2 & F2). split; [congruence|].
  exists (s2 ++ s1). split; [by rewrite H2, H1, app_assoc|by apply Forall_app].
Qed.

Lemma silently_same w w' :
  last_result w' = last_result w → events w' = events w → silently w w'.
Proof. intros HL HE. split; [done|]. by exists []. Qed.

Lemma silently_emit w e :
  ¬ is_Sent e → silently w (with_events (e :: events w) w).
Proof. intros He. split; [done|]. exists [e]. split; [done|by constructor]. Qed.

Ltac silent :=
  first
    [ exact silently_refl | exact silently_trans | exact silently_emit
    | by (intros; apply silently_same)
    | by (intros; cbn; tauto) ].

Lemma same_retention_refl w : same_retention w w.
Proof. by repeat split. Qed.

Lemma same_retention_trans a b c :
  same_retention a b → same_retention b c → same_retention a c.
Proof.
  unfold same_retention. intros (?&?&Hab) (?&?&Hbc).
  repeat split; try congruence. by transitivity (dom (heap b)).
Qed.

Lemma same_retention_alter w f l :
  same_retention w (with_heap (alter f l (heap w)) w).
Proof. repeat split; try done. simpl. by rewrite dom_alter_L. Qed.

Lemma same_retention_alloc w :
  same_retention w
    (with_heap (<[fresh (dom (heap w)) := empty_Scope]> (heap w)) w).
Proof.
  repeat split; try done. simpl. rewrite dom_insert_L.
  apply union_subseteq_r.
Qed.

Ltac retention :=
  first
    [ exact same_retention_refl | exact same_retention_trans
    | exact same_retention_alter | exact same_retention_alloc
    | by (intros; repeat split)
    | exact (λ _, I) | exact (λ _ _, I) ].

(** ** Undisturbed wait points *)

Lemma await_point_undisturbed n w :
  undisturbed (S n) w →
  await_point w = (Ok tt, with_faults (tail (faults w)) w)
  ∧ undisturbed n (with_faults (tail (faults w)) w).
Proof.
  unfold undisturbed, await_point.
  destruct w as [? ? ? ? ? ? ? ? ? [|[e|] f]]; simpl.
  - intros _. split; [done|]. by rewrite take_nil.
  - intros H. by apply Forall_cons_1 in H as [? _].
  - intros H. by apply Forall_cons_1 in H as [_ ?].
Qed.

Lemma ctx_send_undisturbed X ctx p n w :
  undisturbed (S n) w →
  ∃ w',
    ctx_send X ctx p w =
      (Ok (VMessage
             {| msg_id := next_message w; msg_author := bot_id X;
                msg_channel := ctx_channel ctx;
                msg_content := match p with Text s => s | _ => [] end;
                msg_mentions := []; msg_channel_mentions := [];
                msg_role_mentions := [] |}), w')
    ∧ events w' = Sent (ctx_channel ctx) p :: events w
    ∧ undisturbed n w'
    ∧ repl_sessions w' = repl_sessions w ∧ last_result w' = last_result w
    ∧ heap w' = heap w ∧ tasks w' = tasks w ∧ retain w' = retain w
    ∧ _scope w' = _scope w.
Proof.
  intros Hu. apply await_point_undisturbed in Hu as [Ha Hu].
  unfold ctx_send, bind. rewrite Ha. unfold get, modify, ret. simpl.
  eexists. split; [done|]. by simpl.
Qed.

Lemma send_to_undisturbed X i ctx n w :
  undisturbed (S n) w →
  ∃ w',
    send_to X i ctx w = (Ok (send_to_result X i), w')
    ∧ events w' = Sent (ctx_channel ctx) (Pages i) :: events w
    ∧ undisturbed n w'
    ∧ repl_sessions w' = repl_sessions w ∧ last_result w' = last_result w
    ∧ heap w' = heap w ∧ tasks w' = tasks w.
Proof.
  intros Hu. apply await_point_undisturbed in Hu as [Ha Hu].
  unfold send_to, bind. rewrite Ha. unfold emit, modify, ret. simpl.
  eexists. split; [done|]. by simpl.
Qed.

(** ** Retention *)

(** C6: [PythonFeature.__init__] stores one Scope object, with no
    bindings.  With [retain] true, reading the [scope] property gives the
    stored Scope object and changes nothing, so every read gives that same
    object; with [retain] false, a read makes a Scope object that did not
    exist before, with an empty binding table, leaves the existing objects
    as they are, and the next read makes yet another one. *)
Theorem scope_property_follows_retain X (w : World) :
  (heap (PythonFeature_init X) !! _scope (PythonFeature_init X)
   = Some empty_Scope
   ∧ retain (PythonFeature_init X) = RETAIN X)
  ∧ if retain w then
      scope w = (Ok (_scope w), w)
    else
      ∃ l w',
        scope w = (Ok l, w')
        ∧ heap w !! l = None
        ∧ heap w' !! l = Some empty_Scope
        ∧ (∀ l', l' ≠ l → heap w' !! l' = heap w !! l')
        ∧ _scope w' = _scope w ∧ retain w' = false
        ∧ ∃ l2 w2, scope w' = (Ok l2, w2) ∧ l2 ≠ l
                   ∧ heap w2 !! l2 = Some empty_Scope.
Proof.
  split.
  { unfold PythonFeature_init, new_Scope. simpl.
    by rewrite lookup_insert_eq. }
  rewrite scope_eval. unfold scope_of.
  destruct (retain w) eqn:Hr; [done|].
  set (l := fresh (dom (heap w))).
  eexists l, _. split; [done|]. simpl.
  split; [apply fresh_loc_unused|].
  split; [by rewrite lookup_insert_eq|].
  split; [by intros l' Hl'; rewrite lookup_insert_ne|].
  split; [done|]. split; [done|].
  rewrite scope_eval. unfold scope_of. simpl. rewrite Hr.
  set (h' := <[l:=empty_Scope]> (heap w)).
  eexists (fresh (dom h')), _. split; [done|]. simpl.
  split; [|by rewrite lookup_insert_eq].
  intros Heq. pose proof (fresh_loc_unused h') as Hf.
  rewrite Heq in Hf. unfold h' in Hf. by rewrite lookup_insert_eq in Hf.
Qed.

(** ** The retention toggle *)

Lemma ctx_send_state X ctx p w :
  let w' := (ctx_send X ctx p w).2 in
  _scope w' = _scope w ∧ retain w' = retain w ∧ heap w' = heap w
  ∧ last_result w' = last_result w ∧ repl_sessions w' = repl_sessions w
  ∧ tasks w' = tasks w.
Proof.
  unfold ctx_send, bind, get, modify, ret.
  destruct (await_point_cases w) as [[f ->]|[e [f ->]]]; by simpl.
Qed.

Lemma jsk_retain_on X ctx w :
  retain w = false →
  let w' := (jsk_retain X ctx (Some true) w).2 in
  retain w' = true ∧ _scope w' = fresh (dom (heap w))
  ∧ heap w' = <[fresh (dom (heap w)) := empty_Scope]> (heap w).
Proof.
  intros Hr. unfold jsk_retain, bind, get. rewrite Hr.
  unfold modify, new_Scope at 1. simpl.
  match goal with |- context [ctx_send X ctx ?p ?w0] =>
    pose proof (ctx_send_state X ctx p w0) as Hs;
    destruct (ctx_send X ctx p w0) as [? w'] end.
  simpl in *. by destruct Hs as (-> & -> & -> & _).
Qed.

Lemma jsk_retain_off X ctx w :
  retain w = true →
  let w' := (jsk_retain X ctx (Some false) w).2 in
  retain w' = false ∧ _scope w' = _scope w ∧ heap w' = heap w.
Proof.
  intros Hr. unfold jsk_retain, bind, get. rewrite Hr.
  unfold modify. simpl.
  match goal with |- context [ctx_send X ctx ?p ?w0] =>
    pose proof (ctx_send_state X ctx p w0) as Hs;
    destruct (ctx_send X ctx p w0) as [? w'] end.
  simpl in *. by destruct Hs as (-> & -> & -> & _).
Qed.

Lemma jsk_retain_off_already X ctx w :
  retain w = false →
  let w' := (jsk_retain X ctx (Some false) w).2 in
  retain w' = false ∧ _scope w' = _scope w ∧ heap w' = heap w.
Proof.
  intros Hr. unfold jsk_retain, bind, get. rewrite Hr. simpl.
  match goal with |- context [ctx_send X ctx ?p ?w0] =>
    pose proof (ctx_send_state X ctx p w0) as Hs;
    destruct (ctx_send X ctx p w0) as [? w'] end.
  simpl in *. by destruct Hs as (-> & -> & -> & _).
Qed.

Lemma jsk_retain_on_installs X ctx w w0 :
  retain w = false → dom (heap w0) ⊆ dom (heap w) →
  installs_new_Scope w0 (jsk_retain X ctx (Some true) w).2.
Proof.
  intros Hr Hsub.
  destruct (jsk_retain_on X ctx w Hr) as (Hr' & Hs' & Hh').
  set (w' := (jsk_retain X ctx (Some true) w).2) in *.
  pose proof (fresh_loc_unused (heap w)) as Hf.
  unfold installs_new_Scope. rewrite Hs'.
  split; [done|]. split.
  { apply not_elem_of_dom. intros Hin. apply Hsub in Hin.
    by apply not_elem_of_dom in Hf. }
  split; [by rewrite Hh', lookup_insert_eq|].
  split.
  { intros name. unfold scope_lookup. by rewrite Hh', lookup_insert_eq. }
  rewrite scope_eval. unfold scope_of. by rewrite Hr', Hs'.
Qed.

Lemma repl_execute_same_retention X ctx sc arg_dict convertables argument :
  keeps same_retention (repl_execute X ctx sc arg_dict convertables argument).
Proof.
  unfold repl_execute. apply keeps_try_finally; [retention..| |].
  - eapply (keeps_execution X same_retention (λ _, True)); try retention.
    intros code _. eapply keeps_async_for; try retention. intros result.
    eapply (keeps_python_body X same_retention (λ _, True)); retention.
  - eapply (keeps_clear_intersection same_retention (λ _, True)); retention.
Qed.

Lemma jsk_retain_same X ctx toggle w :
  toggle = None ∨ toggle = Some (retain w) →
  same_retention w (jsk_retain X ctx toggle w).2.
Proof.
  intros Ht. unfold jsk_retain, bind at 1, get.
  assert (∀ p, same_retention w (ctx_send X ctx p w).2) as Hsend.
  { intros p. eapply (keeps_ctx_send X same_retention (λ _, True)); retention. }
  destruct Ht as [->| ->]; destruct (retain w); simpl; apply Hsend.
Qed.

Lemma run_command_put_aside X c l w :
  put_aside l w → put_aside l (run_command X w c).
Proof.
  intros [Hl Hs].
  assert (∀ w', same_retention w w' → put_aside l w') as Hkeep.
  { intros w' (Hr & Hsc & Hd). split; [by apply Hd|].
    rewrite Hr, Hsc. exact Hs. }
  destruct c as [ctx toggle|ctx argument|ctx argument|ctx stream|ctx index];
    simpl.
  - destruct toggle as [[|]|].
    + destruct (retain w) eqn:Hr.
      * apply Hkeep, jsk_retain_same. right. by rewrite Hr.
      * destruct (jsk_retain_on X ctx w Hr) as (Hr' & Hs' & Hh').
        split.
        -- rewrite Hh', dom_insert_L. by apply elem_of_union_r.
        -- intros _. rewrite Hs'. intros <-.
           by apply (is_fresh (dom (heap w))).
    + destruct (retain w) eqn:Hr.
      * destruct (jsk_retain_off X ctx w Hr) as (Hr' & Hs' & Hh').
        split; [by rewrite Hh'|]. by rewrite Hr'.
      * apply Hkeep, jsk_retain_same. right. by rewrite Hr.
    + apply Hkeep, jsk_retain_same. by left.
  - apply Hkeep.
    eapply (keeps_jsk_python X same_retention (λ _, True)); retention.
  - apply Hkeep.
    eapply (keeps_jsk_python_inspect X same_retention (λ _, True)); retention.
  - apply Hkeep.
    eapply (keeps_jsk_repl X same_retention (λ _, True)); try retention.
    apply repl_execute_same_retention.
  - apply Hkeep.
    eapply (keeps_jsk_cancel X same_retention (λ _, True)); retention.
Qed.

Lemma run_commands_put_aside X cs l w :
  put_aside l w → put_aside l (run_commands X cs w).
Proof.
  revert w. induction cs as [|c cs IH]; intros w Hl; simpl; [done|].
  by apply IH, run_command_put_aside.
Qed.

(** A Scope that was put aside is not what the [scope] property gives. *)
Lemma put_aside_not_in_use l w : put_aside l w → scope_of w ≠ l.
Proof.
  intros [Hl Hs]. unfold scope_of. destruct (retain w); [by apply Hs|].
  intros <-. by apply (is_fresh (dom (heap w))).
Qed.

(** C4: from a state with retention off, [jsk_retain] with [True] turns it
    on and stores a Scope object that did not exist before and has no
    bindings.  From a state with retention on, [jsk_retain] with [False]
    only turns the flag off (no Scope object is made or changed); the
    [scope] property then gives an object that did not exist before, and
    whatever commands follow, it never again gives the Scope that was
    stored.  Off followed by on, from any state, stores a Scope object
    that did not exist before the two toggles and has no bindings. *)
Theorem retain_toggle_starts_from_an_empty_Scope X ctx ctx' cs (w : World) :
  let off := (jsk_retain X ctx (Some false) w).2 in
  (if retain w then
     retain off = false ∧ heap off = heap w ∧ _scope off = _scope w
     ∧ heap w !! scope_of off = None
     ∧ (_scope w ∈ dom (heap w) →
        scope_of (run_commands X cs off) ≠ _scope w)
   else
     installs_new_Scope w (jsk_retain X ctx' (Some true) w).2)
  ∧ installs_new_Scope w (jsk_retain X ctx' (Some true) off).2.
Proof.
  intros off. subst off. split.
  - destruct (retain w) eqn:Hr.
    + destruct (jsk_retain_off X ctx w Hr) as (Hr' & Hs' & Hh').
      split; [done|]. split; [done|]. split; [done|]. split.
      * unfold scope_of. rewrite Hr', Hh'. apply fresh_loc_unused.
      * intros Hin. apply put_aside_not_in_use, run_commands_put_aside.
        split; [by rewrite Hh'|]. by rewrite Hr'.
    + by apply jsk_retain_on_installs.
  - destruct (retain w) eqn:Hr.
    + destruct (jsk_retain_off X ctx w Hr) as (Hr' & Hs' & Hh').
      apply jsk_retain_on_installs; [done|by rewrite Hh'].
    + destruct (jsk_retain_off_already X ctx w Hr) as (Hr' & Hs' & Hh').
      apply jsk_retain_on_installs; [done|by rewrite Hh'].
Qed.

(** ** Cleanup of the argument bindings *)

Lemma python_body_quiet X ctx result :
  keeps quietly (python_body X ctx result).
Proof. eapply keeps_python_body; footprint. Qed.

Lemma inspect_body_quiet X ctx result :
  keeps quietly (inspect_body X ctx result).
Proof. eapply keeps_inspect_body; footprint. Qed.

Lemma python_loop_quiet X ctx sc code :
  keeps quietly (async_for sc (python_body X ctx) code).
Proof. eapply keeps_async_for; try footprint. apply python_body_quiet. Qed.

Lemma inspect_loop_quiet X ctx sc code :
  keeps quietly (async_for sc (inspect_body X ctx) code).
Proof. eapply keeps_async_for; try footprint. apply inspect_body_quiet. Qed.

(** From the making of the executor to the end of the [async for], the
    events gain the making of the executor and, after it, only what goes to
    the chat. *)
Lemma executor_run_events X sc body source arg_dict convertables w :
  (∀ code, parse X source convertables = Some code →
           keeps quietly (async_for sc body code)) →
  ∃ sends,
    Forall is_Sent sends
    ∧ events ((executor <- AsyncCodeExecutor X source sc arg_dict convertables ;;
               async_for sc body executor) w).2
      = sends ++ ExecutorCreated source sc arg_dict convertables :: events w.
Proof.
  intros Hrun. unfold AsyncCodeExecutor, bind, emit, modify. simpl.
  destruct (parse X source convertables) as [code|] eqn:Hp; simpl.
  - match goal with |- context [async_for sc body code ?w1] =>
      destruct (Hrun code eq_refl w1) as (sends & -> & HF) end.
    by exists sends.
  - by exists [].
Qed.

Lemma submit_events {A} ctx (body : M A) w :
  ∃ w0, events w0 = events w
        ∧ events (submit ctx body w).2 = events (body w0).2.
Proof.
  unfold submit, bind, get, modify, try_finally. simpl.
  match goal with |- context [body ?w0] => exists w0 end.
  split; [done|]. by destruct (body _) as [o w1].
Qed.

Lemma await_point_events w : events (await_point w).2 = events w.
Proof. by destruct (await_point_cases w) as [[f ->]|[e [f ->]]]. Qed.

Lemma ReplResponseReactor_events X body w :
  events (ReplResponseReactor X body w).2 = events w
  ∨ ∃ w0, events w0 = events w
          ∧ events (ReplResponseReactor X body w).2 = events (body w0).2.
Proof.
  unfold ReplResponseReactor, bind.
  destruct (await_point_cases w) as [[f ->]|[e [f ->]]]; [|by left].
  right. exists (with_faults f w). split; [done|].
  destruct (body (with_faults f w)) as [[?|e] w1]; simpl.
  - apply await_point_events.
  - destruct (reactor_handles X e); [apply await_point_events|done].
Qed.

(** The block under [try:]: either no executor was made, or one was made
    and after it only the chat was written to. *)
Lemma execution_events X ctx sc body source arg_dict convertables w :
  (∀ code, parse X source convertables = Some code →
           keeps quietly (async_for sc body code)) →
  let w' :=
    (ReplResponseReactor X
       (submit ctx
          (executor <- AsyncCodeExecutor X source sc arg_dict convertables ;;
           async_for sc body executor)) w).2 in
  events w' = events w
  ∨ ∃ sends, Forall is_Sent sends
             ∧ events w' =
               sends ++ ExecutorCreated source sc arg_dict convertables
                 :: events w.
Proof.
  intros Hbody w'. subst w'.
  destruct (ReplResponseReactor_events X
              (submit ctx
                 (executor <- AsyncCodeExecutor X source sc arg_dict convertables ;;
                  async_for sc body executor)) w)
    as [H|(w0 & H0 & ->)]; [by left|].
  destruct (submit_events ctx
              (executor <- AsyncCodeExecutor X source sc arg_dict convertables ;;
               async_for sc body executor) w0) as (w1 & H1 & ->).
  destruct (executor_run_events X sc body source arg_dict convertables w1 Hbody)
    as (sends & HF & ->).
  right. exists sends. split; [done|]. by rewrite H1, H0.
Qed.

Lemma try_finally_clear_intersection {A} (body : M A) sc arg_dict w :
  try_finally body (clear_intersection sc arg_dict) w =
  ((body w).1,
   with_heap (alter (Scope_clear_intersection arg_dict) sc (heap (body w).2))
     (with_events (ClearIntersection sc arg_dict :: events (body w).2)
        (body w).2)).
Proof.
  unfold try_finally, clear_intersection, bind, emit, modify.
  by destruct (body w).
Qed.

Lemma scope_lookup_cleared w h sc arg_dict name :
  is_Some (arg_dict !! name) →
  scope_lookup
    (with_heap (alter (Scope_clear_intersection arg_dict) sc h) w) sc name
  = None.
Proof.
  intros Hin. unfold scope_lookup. simpl. rewrite lookup_alter_eq.
  destruct (h !! sc) as [s|]; simpl; [|done].
  apply lookup_difference_None. by right.
Qed.

Lemma guarded_execution X ctx sc body source arg_dict convertables w :
  (∀ code, parse X source convertables = Some code →
           keeps quietly (async_for sc body code)) →
  let w' :=
    (try_finally
       (ReplResponseReactor X
          (submit ctx
             (executor <- AsyncCodeExecutor X source sc arg_dict convertables ;;
              async_for sc body executor)))
       (clear_intersection sc arg_dict) w).2 in
  cleaned_up sc arg_dict w' ∧ tidily w w'.
Proof.
  intros Hbody w'. subst w'. rewrite try_finally_clear_intersection. simpl.
  split; [split|].
  - by eexists.
  - intros name Hin. by apply scope_lookup_cleared.
  - destruct (execution_events X ctx sc body source arg_dict convertables w Hbody)
      as [->|(sends & HF & ->)].
    + by exists [ClearIntersection sc arg_dict].
    + exists (ClearIntersection sc arg_dict
                :: sends ++ [ExecutorCreated source sc arg_dict convertables]).
      split; [simpl; by rewrite <- app_assoc|].
      simpl. by apply all_cleared_sends.
Qed.

Lemma jsk_python_unfold X ctx argument w :
  jsk_python X ctx argument w =
  try_finally
    (ReplResponseReactor X
       (submit ctx
          (executor <- AsyncCodeExecutor X (content argument) (scope_of w)
                         (invocation_arg_dict X ctx w) None ;;
           async_for (scope_of w) (python_body X ctx) executor)))
    (clear_intersection (scope_of w) (invocation_arg_dict X ctx w))
    (scope w).2.
Proof. unfold jsk_python, bind, get. by rewrite scope_eval. Qed.

Lemma jsk_python_inspect_unfold X ctx argument w :
  jsk_python_inspect X ctx argument w =
  try_finally
    (ReplResponseReactor X
       (submit ctx
          (executor <- AsyncCodeExecutor X (content argument) (scope_of w)
                         (invocation_arg_dict X ctx w) None ;;
           async_for (scope_of w) (inspect_body X ctx) executor)))
    (clear_intersection (scope_of w) (invocation_arg_dict X ctx w))
    (scope w).2.
Proof. unfold jsk_python_inspect, bind, get. by rewrite scope_eval. Qed.

Lemma scope_tidily w : tidily w (scope w).2.
Proof.
  apply tidily_same. rewrite scope_eval. simpl. by destruct (retain w).
Qed.

Lemma repl_execute_tidy X ctx sc arg_dict convertables argument :
  keeps tidily (repl_execute X ctx sc arg_dict convertables argument).
Proof.
  intros w. unfold repl_execute.
  apply guarded_execution. intros. apply python_loop_quiet.
Qed.

Lemma jsk_repl_tidy X ctx stream : keeps tidily (jsk_repl X ctx stream).
Proof.
  eapply keeps_jsk_repl; try footprint. apply repl_execute_tidy.
Qed.

(** C1: [jsk_python], [jsk_python_inspect] and the execution of one input
    of [jsk_repl] end, whatever their outcome (a normal end, an exception,
    a cancellation thrown in at any wait point), with [clear_intersection]
    called on the Scope they used with their argument dict, after which no
    name of the argument dict is bound in that Scope; and over a whole
    [jsk_repl] session, as in the two commands, every executor that is
    made is followed by that call before anything else is executed. *)
Theorem arguments_cleared_on_every_exit X ctx argument stream sc arg_dict
    convertables (w : World) :
  cleaned_up (scope_of w) (invocation_arg_dict X ctx w)
    (jsk_python X ctx argument w).2
  ∧ cleaned_up (scope_of w) (invocation_arg_dict X ctx w)
      (jsk_python_inspect X ctx argument w).2
  ∧ cleaned_up sc arg_dict
      (repl_execute X ctx sc arg_dict convertables argument w).2
  ∧ tidily w (jsk_python X ctx argument w).2
  ∧ tidily w (jsk_python_inspect X ctx argument w).2
  ∧ tidily w (jsk_repl X ctx stream w).2.
Proof.
  rewrite jsk_python_unfold, jsk_python_inspect_unfold.
  pose proof (guarded_execution X ctx (scope_of w) (python_body X ctx)
                (content argument) (invocation_arg_dict X ctx w) None
                (scope w).2 (λ code _, python_loop_quiet X ctx _ code))
    as [Hp1 Hp2].
  pose proof (guarded_execution X ctx (scope_of w) (inspect_body X ctx)
                (content argument) (invocation_arg_dict X ctx w) None
                (scope w).2 (λ code _, inspect_loop_quiet X ctx _ code))
    as [Hi1 Hi2].
  pose proof (guarded_execution X ctx sc (python_body X ctx)
                (content argument) arg_dict (Some convertables)
                w (λ code _, python_loop_quiet X ctx _ code)) as [Hr1 _].
  split; [done|]. split; [done|]. split; [done|].
  split; [by eapply tidily_trans; [apply scope_tidily|]|].
  split; [by eapply tidily_trans; [apply scope_tidily|]|].
  apply jsk_repl_tidy.
Qed.

(** ** Results that are [None] *)

Lemma python_body_skips_None X ctx : skips_None (python_body X ctx).
Proof. by intros w. Qed.

Lemma async_for_python_None X ctx sc resume w :
  async_for sc (python_body X ctx) (Emit VNone resume) w
  = async_for sc (python_body X ctx) (resume None) w.
Proof. done. Qed.

Lemma ctx_send_same_feature X ctx p : keeps same_feature (ctx_send X ctx p).
Proof. eapply (keeps_ctx_send X same_feature (λ _, True)); frame. Qed.

Lemma send_to_same_feature X i ctx : keeps same_feature (send_to X i ctx).
Proof. eapply (keeps_send_to X same_feature (λ _, True)); frame. Qed.

Lemma jsk_python_result_handling_same_feature X ctx result :
  keeps same_feature (jsk_python_result_handling X ctx result).
Proof.
  eapply (keeps_jsk_python_result_handling X same_feature (λ _, True)); frame.
Qed.


Lemma repl_execute_same_session X ctx sc arg_dict convertables argument :
  keeps same_session (repl_execute X ctx sc arg_dict convertables argument).
Proof.
  unfold repl_execute. apply keeps_try_finally; [frame..| |].
  - eapply (keeps_execution X same_session (λ _, True)); try frame.
    intros code _. eapply keeps_async_for; try frame. intros result.
    eapply (keeps_python_body X same_session (λ _, True)); frame.
  - eapply (keeps_clear_intersection same_session (λ _, True)); frame.
Qed.

Lemma inspect_body_stores X ctx result w :
  last_result (inspect_body X ctx result w).2 = result.
Proof.
  unfold inspect_body, bind at 1, modify.
  match goal with |- last_result (?m ?w1).2 = _ =>
    assert (keeps same_feature m) as Hk end.
  { repeat case_match; try (apply keeps_raise; frame);
      (apply keeps_bind; [frame..| |intros; apply keeps_ret; frame]);
      first [apply ctx_send_same_feature | apply send_to_same_feature]. }
  by destruct (Hk (with_last_result result w)) as (-> & _).
Qed.

Lemma python_loop_only_None X ctx sc code :
  only_None code → keeps silently (async_for sc (python_body X ctx) code).
Proof.
  induction 1 as [resume _ IH|name v next _ IH|name next _ IH|next _ IH|e|];
    simpl.
  - apply keeps_bind; [silent..|apply keeps_ret; silent|intros sent].
    apply keeps_bind; [silent..| |intros; apply IH].
    destruct sent; [eapply keeps_assign; silent|apply keeps_ret; silent].
  - apply keeps_bind; [silent..|eapply keeps_assign; silent|done].
  - apply keeps_get_bind; [silent..|]. intros w0. apply IH.
  - apply keeps_bind; [silent..|eapply keeps_await_point; silent|done].
  - apply keeps_raise; silent.
  - apply keeps_ret; silent.
Qed.

Lemma execution_only_None X ctx sc source arg_dict convertables :
  produces_only_None X source convertables →
  keeps silently
    (try_finally
       (ReplResponseReactor X
          (submit ctx
             (executor <- AsyncCodeExecutor X source sc arg_dict convertables ;;
              async_for sc (python_body X ctx) executor)))
       (clear_intersection sc arg_dict)).
Proof.
  intros Hsrc. apply keeps_try_finally; [silent..| |].
  - eapply (keeps_execution X silently (λ e, ¬ is_Sent e)); try silent.
    intros code Hp. by apply python_loop_only_None, Hsrc.
  - eapply (keeps_clear_intersection silently (λ e, ¬ is_Sent e)); silent.
Qed.

Lemma scope_silently w : silently w (scope w).2.
Proof.
  rewrite scope_eval. simpl. destruct (retain w); by apply silently_same.
Qed.

Lemma inspect_body_sends X ctx result payload w :
  undisturbed 1 w →
  inspect_payload X ctx result = Some payload →
  ∃ sent w',
    inspect_body X ctx result w = (Ok (Some sent), w')
    ∧ events w' = Sent (ctx_channel ctx) payload :: events w
    ∧ last_result w' = result.
Proof.
  intros Hu. unfold inspect_payload, inspect_body, bind at 1, modify.
  set (w1 := with_last_result result w).
  assert (undisturbed 1 w1) as Hu1 by done.
  destruct (use_file_check X ctx (length (inspect_text X result))).
  - destruct (PyStr.encode_utf8 (inspect_text X result)) as [bytes|];
      [|done]. intros [= <-].
    destruct (ctx_send_undisturbed X ctx
                (Upload {| file_name := py "inspection.prolog";
                           file_bytes := bytes |}) 0 w1 Hu1)
      as (w' & Hs & He & _ & _ & HL & _).
    unfold bind. rewrite Hs. by eexists _, w'.
  - intros [= <-].
    match goal with |- context [send_to X ?i ctx] =>
      destruct (send_to_undisturbed X i ctx 0 w1 Hu1)
        as (w' & Hs & He & _ & _ & HL & _) end.
    unfold bind. rewrite Hs. by eexists _, w'.
Qed.

(** C3, as the code has it: [jsk_python] and [jsk_repl] pass over a result
    that is [None] (their loop body sends nothing, stores nothing, raises
    nothing and hands nothing back, so that the loop goes on as if the
    result had not been produced), and a source all of whose results are
    [None] leaves the chat and the stored last result as they were;
    [jsk_python_inspect] has no such case: it stores [None] as the last
    result and sends its inspection like that of any other result. *)
Theorem None_is_skipped_by_py_and_repl X ctx argument sc arg_dict convertables
    resume payload (w : World) :
  skips_None (python_body X ctx)
  ∧ async_for sc (python_body X ctx) (Emit VNone resume) w
    = async_for sc (python_body X ctx) (resume None) w
  ∧ (produces_only_None X (content argument) None →
     silently w (jsk_python X ctx argument w).2)
  ∧ (produces_only_None X (content argument) (Some convertables) →
     silently w (repl_execute X ctx sc arg_dict convertables argument w).2)
  ∧ last_result (inspect_body X ctx VNone w).2 = VNone
  ∧ (undisturbed 1 w → inspect_payload X ctx VNone = Some payload →
     ∃ sent w',
       inspect_body X ctx VNone w = (Ok (Some sent), w')
       ∧ events w' = Sent (ctx_channel ctx) payload :: events w).
Proof.
  split; [apply python_body_skips_None|]. split; [done|].
  split.
  { intros Hsrc. rewrite jsk_python_unfold.
    eapply silently_trans; [apply scope_silently|].
    by apply execution_only_None. }
  split; [intros Hsrc; by apply execution_only_None|].
  split; [apply inspect_body_stores|].
  intros Hu Hp.
  destruct (inspect_body_sends X ctx VNone payload w Hu Hp)
    as (sent & w' & H1 & H2 & _).
  by exists sent, w'.
Qed.

(** ** What the renderer returns *)

Lemma python_body_renders X ctx result :
  result ≠ VNone →
  python_body X ctx result =
  (modify (with_last_result result) ;;
   sent <- jsk_python_result_handling X ctx result ;;
   ret (Some sent)).
Proof. by destruct result. Qed.

(** C5: in the loop of [jsk_python], a result other than [None] is stored
    as the last result and handed to [jsk_python_result_handling]; when
    that returns [sent], the executor is resumed with [sent] as the value
    of its suspension point, in a state where the name [_] is bound to
    [sent] in the Scope of the invocation. *)
Theorem rendering_is_sent_back_to_the_executor X ctx sc result resume sent
    (w w1 : World) :
  result ≠ VNone →
  is_Some (heap w !! sc) →
  jsk_python_result_handling X ctx result (with_last_result result w)
  = (Ok sent, w1) →
  let w2 := (assign sc (py "_") sent w1).2 in
  async_for sc (python_body X ctx) (Emit result resume) w
  = async_for sc (python_body X ctx) (resume (Some sent)) w2
  ∧ scope_lookup w2 sc (py "_") = Some sent
  ∧ last_result w2 = result.
Proof.
  intros Hres [s Hs] Hrender w2. subst w2.
  pose proof (jsk_python_result_handling_same_feature X ctx result
                (with_last_result result w)) as Hsame.
  rewrite Hrender in Hsame. destruct Hsame as (HL & _ & _ & _ & Hh & _).
  simpl in HL, Hh. split; [|split].
  - cbn [async_for]. rewrite (python_body_renders X ctx result Hres).
    unfold bind at 1. unfold bind at 1. unfold bind at 1.
    unfold modify at 1. rewrite Hrender. by unfold ret, bind, assign, modify.
  - unfold scope_lookup, assign, modify. simpl.
    rewrite lookup_alter_eq, Hh, Hs. simpl. by rewrite lookup_insert_eq.
  - done.
Qed.

(** ** The substitutions for mentions *)

(** Whatever the message mentions, the executor of [jsk_python] gets no
    table of substitutions, and its argument dict is the one built from
    the context and the last result alone. *)
Lemma jsk_python_supplies_no_convertables X ctx argument (w : World) :
  ∃ new,
    events (jsk_python X ctx argument w).2 = new ++ events w
    ∧ ∀ source sc arg_dict convertables,
        ExecutorCreated source sc arg_dict convertables ∈ new →
        convertables = None ∧ arg_dict = invocation_arg_dict X ctx w.
Proof.
  rewrite jsk_python_unfold, try_finally_clear_intersection. simpl.
  assert (events (scope w).2 = events w) as Hsc.
  { rewrite scope_eval. simpl. by destruct (retain w). }
  destruct (execution_events X ctx (scope_of w) (python_body X ctx)
              (content argument) (invocation_arg_dict X ctx w) None
              (scope w).2 (λ code _, python_loop_quiet X ctx _ code))
    as [->|(sends & HF & ->)]; rewrite Hsc.
  - exists [ClearIntersection (scope_of w) (invocation_arg_dict X ctx w)].
    split; [done|]. intros ???? Hin.
    apply elem_of_cons in Hin as [|Hin]; [done|]. by apply elem_of_nil in Hin.
  - exists (ClearIntersection (scope_of w) (invocation_arg_dict X ctx w)
              :: sends
              ++ [ExecutorCreated (content argument) (scope_of w)
                    (invocation_arg_dict X ctx w) None]).
    split; [simpl; by rewrite <- app_assoc|]. intros ???? Hin.
    apply elem_of_cons in Hin as [|Hin]; [done|].
    apply elem_of_app in Hin as [Hin|Hin].
    + rewrite Forall_forall in HF. by apply HF in Hin.
    + apply elem_of_cons in Hin as [[= _ _ <- <-]|Hin]; [done|].
      by apply elem_of_nil in Hin.
Qed.

(** ** The end of a session *)

Lemma repl_exit_undisturbed X ctx n w :
  undisturbed (S n) w → ctx_channel ctx ∈ repl_sessions w →
  ∃ w',
    repl_exit X ctx w = (Ok tt, w')
    ∧ events w' = Sent (ctx_channel ctx) (Text (py "Exiting...")) :: events w
    ∧ repl_sessions w' = repl_sessions w ∖ {[ctx_channel ctx]}
    ∧ undisturbed n w'.
Proof.
  intros Hu Hin. unfold repl_exit, bind at 1.
  destruct (ctx_send_undisturbed X ctx (Text (py "Exiting...")) n w Hu)
    as (w1 & -> & He & Hu1 & Hs & _).
  unfold repl_sessions_remove, bind, get. rewrite Hs.
  rewrite decide_True by done. unfold modify. eexists. split; [done|].
  by simpl.
Qed.

Lemma marker_added_and_removed (c : Z) (s : gset Z) :
  c ∉ s → ({[c]} ∪ s) ∖ {[c]} = s.
Proof.
  intros Hc. apply set_eq. intros x.
  rewrite elem_of_difference, elem_of_union, elem_of_singleton. split.
  - by intros [[->|?] ?].
  - intros Hx. split; [by right|]. by intros ->.
Qed.

Lemma REPL_TIMEOUT_is_ten_minutes : (REPL_TIMEOUT == 600)%Q.
Proof. reflexivity. Qed.

(** When nothing that arrives passes the check, or the next message comes
    after the timeout, the wait times out. *)
Lemma wait_for_nothing_matches chk timeout stream :
  Forall (λ i, chk (message i) = false) stream →
  wait_for chk timeout stream = None.
Proof.
  intros Hall. revert timeout.
  induction Hall as [|i rest Hi _ IH]; intros timeout; simpl; [done|].
  rewrite Hi. by destruct (Qle_bool (delay i) timeout).
Qed.

Lemma wait_for_too_late chk timeout i rest :
  (timeout < delay i)%Q → wait_for chk timeout (i :: rest) = None.
Proof.
  intros Hlate. simpl.
  destruct (Qle_bool (delay i) timeout) eqn:Hle; [|done].
  apply Qle_bool_iff in Hle. by apply Qlt_not_le in Hlate.
Qed.

(** A session that ends without an exception has released its marker. *)
Lemma repl_loop_releases X ctx sc convertables stream arg_dict w w' :
  ctx_channel ctx ∈ repl_sessions w →
  repl_loop X ctx sc convertables stream arg_dict w = (Ok tt, w') →
  repl_sessions w' = repl_sessions w ∖ {[ctx_channel ctx]}.
Proof.
  remember (length stream) as n eqn:Hn.
  revert stream arg_dict w Hn.
  induction (lt_wf n) as [n _ IH]. intros stream arg_dict w -> Hin.
  assert (∀ w1, repl_sessions w1 = repl_sessions w →
                repl_exit X ctx w1 = (Ok tt, w') →
                repl_sessions w' = repl_sessions w ∖ {[ctx_channel ctx]})
    as Hexit.
  { intros w1 Hs1. unfold repl_exit, bind at 1.
    pose proof (ctx_send_same_feature X ctx (Text (py "Exiting...")) w1)
      as (_ & Hs2 & _).
    destruct (ctx_send X ctx (Text (py "Exiting...")) w1) as [[?|?] w2];
      [|done]. simpl in Hs2.
    unfold repl_sessions_remove, bind, get, modify.
    case_decide; [|done]. intros [= <-]. simpl. by rewrite Hs2, Hs1. }
  rewrite repl_loop_unfold.
  pose proof (await_point_cases w) as [[f Ha]|[e [f Ha]]]; rewrite Ha.
  - destruct (wait_for (check X ctx) REPL_TIMEOUT stream)
      as [[response rest]|] eqn:Hwait; [|by apply Hexit].
    unfold repl_respond. repeat case_match.
    + by apply Hexit.
    + unfold bind at 1.
      match goal with |- context [ctx_send X ctx ?p ?w1] =>
        pose proof (ctx_send_same_feature X ctx p w1) as (_ & Hs2 & _);
        destruct (ctx_send X ctx p w1) as [[?|?] w2]; [|done] end.
      simpl in Hs2. intros Hloop.
      rewrite <- Hs2. eapply IH; [|done| |exact Hloop].
      * by eapply wait_for_shorter.
      * by rewrite Hs2.
    + unfold bind at 1.
      match goal with |- context [repl_execute X ctx sc ?d ?c ?a ?w1] =>
        pose proof (repl_execute_same_session X ctx sc d c a w1) as (Hs2 & _);
        destruct (repl_execute X ctx sc d c a w1) as [[?|?] w2]; [|done] end.
      simpl in Hs2. intros Hloop.
      rewrite <- Hs2. eapply IH; [|done| |exact Hloop].
      * by eapply wait_for_shorter.
      * by rewrite Hs2.
  - destruct e; try done. by apply Hexit.
Qed.

(** C7: when no message that passes the check arrives within the timeout
    of 10 minutes, the pass of the loop that waits sends [Exiting...],
    removes the marker of the channel from [repl_sessions] and ends the
    loop without an exception; so a session that meets this on its first
    wait leaves [repl_sessions] as it found it.  The wait and the sending
    are taken to go undisturbed. *)
Theorem idle_session_is_torn_down X ctx sc convertables stream arg_dict
    (w : World) :
  wait_for (check X ctx) REPL_TIMEOUT stream = None →
  (REPL_TIMEOUT == 10 * 60)%Q
  ∧ (undisturbed 2 w → ctx_channel ctx ∈ repl_sessions w →
     ∃ w',
       repl_loop X ctx sc convertables stream arg_dict w = (Ok tt, w')
       ∧ events w' =
           Sent (ctx_channel ctx) (Text (py "Exiting...")) :: events w
       ∧ repl_sessions w' = repl_sessions w ∖ {[ctx_channel ctx]})
  ∧ (undisturbed 3 w → ctx_channel ctx ∉ repl_sessions w →
     ∃ w' banner,
       jsk_repl X ctx stream w = (Ok tt, w')
       ∧ events w' =
           Sent (ctx_channel ctx) (Text (py "Exiting..."))
           :: Sent (ctx_channel ctx) (Text banner) :: events w
       ∧ repl_sessions w' = repl_sessions w).
Proof.
  intros Hwait. split; [reflexivity|]. split.
  - intros Hu Hin. rewrite repl_loop_unfold.
    apply await_point_undisturbed in Hu as [-> Hu]. rewrite Hwait.
    destruct (repl_exit_undisturbed X ctx 0 _ Hu Hin)
      as (w' & He & Hev & Hs & _).
    by exists w'.
  - intros Hu Hnot. unfold jsk_repl, bind at 1.
    unfold jsk_python_get_convertables, bind at 1, get, ret.
    destruct (bind_mentions _ _ _ _) as [arg_dict0 convertables0].
    unfold bind at 1. rewrite scope_eval. unfold bind at 1, get.
    set (w0 := if retain w then w else _).
    assert (repl_sessions w0 = repl_sessions w ∧ events w0 = events w
            ∧ undisturbed 3 w0) as (Hs0 & He0 & Hu0).
    { unfold w0. by destruct (retain w). }
    rewrite decide_False by (by rewrite Hs0).
    unfold bind at 1, modify.
    match goal with |- context [bind (ctx_send X ctx ?p) _ ?w1] =>
      assert (undisturbed 3 w1) as Hu1 by done;
      destruct (ctx_send_undisturbed X ctx p 2 w1 Hu1)
        as (w2 & Hsend & He2 & Hu2 & Hs2 & _) end.
    unfold bind at 1. rewrite Hsend.
    rewrite repl_loop_unfold.
    apply await_point_undisturbed in Hu2 as [-> Hu3]. rewrite Hwait.
    assert (ctx_channel ctx ∈ repl_sessions (with_faults (tail (faults w2)) w2))
      as Hin.
    { simpl. rewrite Hs2. simpl. apply elem_of_union. left.
      by apply elem_of_singleton. }
    destruct (repl_exit_undisturbed X ctx 0 _ Hu3 Hin)
      as (w' & Hexit & Hev & Hs & _).
    eexists w', _. split; [done|]. split.
    + rewrite Hev. simpl. by rewrite He2, <- He0.
    + rewrite Hs. simpl. rewrite Hs2. simpl. rewrite Hs0.
      by apply marker_added_and_removed.
Qed.

(** ** The inputs that leave a session *)







(** ** Cancelling tasks *)

Lemma utils_get_None i ts : utils_get i ts = None ↔ no_such_task i ts.
Proof.
  unfold utils_get, no_such_task. induction ts as [|t ts IH]; simpl.
  - split; [|done]. intros _ t Ht. by apply elem_of_nil in Ht.
  - case_bool_decide as Hi.
    + split; [done|]. intros H. destruct (H t); [left|done].
    + rewrite IH. split.
      * intros H t' [->|Ht']%elem_of_cons; [done|by apply H].
      * intros H t' Ht'. apply H. by right.
Qed.

Lemma utils_get_Some i ts t :
  utils_get i ts = Some t → t ∈ ts ∧ task_index t = i.
Proof.
  unfold utils_get. induction ts as [|t' ts IH]; simpl; [done|].
  case_bool_decide as Hi.
  - intros [= <-]. split; [left|done].
  - intros H. destruct (IH H) as [? ?]. split; [by right|done].
Qed.

Lemma remove_first_no_such_task i ts t :
  NoDup (task_index <$> ts) → utils_get i ts = Some t →
  no_such_task i (remove_first t ts).
Proof.
  unfold utils_get. induction ts as [|t' ts IH]; simpl; [done|].
  intros [Hnot Hnd]%NoDup_cons. case_bool_decide as Hi.
  - intros [= <-]. rewrite decide_True by done.
    intros t0 Ht0 Heq. apply Hnot. rewrite Hi, <- Heq.
    by apply list_elem_of_fmap_2.
  - intros H. destruct (utils_get_Some i ts t H) as [_ Hti].
    rewrite decide_False by congruence.
    intros t0 [->|Ht0]%elem_of_cons; [done|]. by apply (IH Hnd H).
Qed.

Lemma cancel_each_eval ts w :
  cancel_each ts w =
  (Ok tt,
   with_events
     (rev ((λ t, CancelRequested (task_handle t)) <$> ts) ++ events w) w).
Proof.
  revert w. induction ts as [|t ts IH]; intros w; simpl.
  - by destruct w.
  - unfold bind, cancel, emit, modify. simpl. rewrite IH.
    unfold with_events. simpl. by rewrite <- app_assoc.
Qed.

(** A literal other than [~] is refused, with the registry as it was. *)
Lemma jsk_cancel_refuses_other_literals X ctx s w :
  tasks w ≠ [] → s ≠ py "~" →
  jsk_cancel X ctx (IndexStr s) w
  = (Raised (BadArgument
               (py "Literal for " ++ [34%N] ++ py "index" ++ [34%N]
                ++ py " not recognized.")), w).
Proof.
  intros Hts Hs. unfold jsk_cancel, bind, get.
  destruct (tasks w); [done|]. by rewrite decide_False.
Qed.

(** C8: with the wait point of the answer undisturbed, [jsk_cancel]
    - for an integer index that no task has (the registry may be empty,
      and then -1 counts as such an index) answers without raising and
      leaves the registry and the task handles alone;
    - for an integer index other than -1 that a task has, removes the
      first such task and requests cancellation of its handle, after which
      no task has that index where the indices are distinct;
    - for -1 with a task in the registry, removes the last task and
      requests cancellation of its handle;
    - for the literal [~] with a task in the registry, requests
      cancellation of every handle and empties the registry. *)
Theorem cancel_removes_what_is_there X ctx (i : Z) (w : World) :
  undisturbed 1 w →
  (no_such_task i (tasks w) → (i = (-1)%Z → tasks w = []) →
   ∃ sent w' text,
     jsk_cancel X ctx (IndexInt i) w = (Ok sent, w')
     ∧ tasks w' = tasks w
     ∧ events w' = Sent (ctx_channel ctx) (Text text) :: events w)
  ∧ (i ≠ (-1)%Z → ¬ no_such_task i (tasks w) →
     ∃ sent w' t,
       jsk_cancel X ctx (IndexInt i) w = (Ok sent, w')
       ∧ t ∈ tasks w ∧ task_index t = i
       ∧ tasks w' = remove_first t (tasks w)
       ∧ events w' =
           Sent (ctx_channel ctx) (Text (cancelled_text t))
           :: CancelRequested (task_handle t) :: events w
       ∧ (NoDup (task_index <$> tasks w) → no_such_task i (tasks w')))
  ∧ (∀ ts t, tasks w = ts ++ [t] →
     ∃ sent w',
       jsk_cancel X ctx (IndexInt (-1)) w = (Ok sent, w')
       ∧ tasks w' = ts
       ∧ events w' =
           Sent (ctx_channel ctx) (Text (cancelled_text t))
           :: CancelRequested (task_handle t) :: events w)
  ∧ (tasks w ≠ [] →
     ∃ sent w' text,
       jsk_cancel X ctx (IndexStr (py "~")) w = (Ok sent, w')
       ∧ tasks w' = []
       ∧ events w' =
           Sent (ctx_channel ctx) (Text text)
           :: rev ((λ t, CancelRequested (task_handle t)) <$> tasks w)
           ++ events w).
Proof.
  intros Hu. split; [|split; [|split]].
  - intros Hno Hlast. unfold jsk_cancel, bind at 1, get.
    destruct (tasks w) as [|t0 ts0] eqn:Hts.
    + destruct (ctx_send_undisturbed X ctx (Text (py "No tasks to cancel."))
                  0 w Hu) as (w' & -> & He & _ & _ & _ & _ & Ht & _).
      eexists _, w', _. by rewrite Ht, Hts.
    + rewrite decide_False by (intros ->; by specialize (Hlast eq_refl)).
      apply utils_get_None in Hno. rewrite Hno.
      destruct (ctx_send_undisturbed X ctx (Text (py "Unknown task."))
                  0 w Hu) as (w' & -> & He & _ & _ & _ & _ & Ht & _).
      eexists _, w', _. by rewrite Ht, Hts.
  - intros Hi Hsome. unfold jsk_cancel, bind at 1, get.
    destruct (tasks w) as [|t0 ts0] eqn:Hts.
    { destruct Hsome. intros t Ht. by apply elem_of_nil in Ht. }
    rewrite decide_False by done.
    destruct (utils_get i (t0 :: ts0)) as [t|] eqn:Hget;
      [|by apply utils_get_None in Hget].
    destruct (utils_get_Some _ _ _ Hget) as [Hin Hidx].
    unfold bind at 1, modify. unfold bind at 1, cancel, emit, modify.
    match goal with |- context [ctx_send X ctx ?p ?w1] =>
      assert (undisturbed 1 w1) as Hu1 by done;
      destruct (ctx_send_undisturbed X ctx p 0 w1 Hu1)
        as (w' & -> & He & _ & _ & _ & _ & Ht & _) end.
    eexists _, w', t. split; [done|]. split; [done|]. split; [done|].
    simpl in Ht, He. rewrite Ht, He, Hts. split; [done|]. split; [done|].
    intros Hnd. by apply remove_first_no_such_task.
  - intros ts t Hts. unfold jsk_cancel, bind at 1, get. rewrite Hts.
    destruct (ts ++ [t]) as [|t0 ts0] eqn:Happ;
      [by destruct ts|]. rewrite <- Happ.
    rewrite decide_True by done. rewrite last_snoc, removelast_last.
    unfold bind at 1, modify. unfold bind at 1, cancel, emit, modify.
    match goal with |- context [ctx_send X ctx ?p ?w1] =>
      assert (undisturbed 1 w1) as Hu1 by done;
      destruct (ctx_send_undisturbed X ctx p 0 w1 Hu1)
        as (w' & -> & He & _ & _ & _ & _ & Ht & _) end.
    eexists _, w'. by rewrite Ht, He.
  - intros Hne. unfold jsk_cancel, bind at 1, get.
    destruct (tasks w) as [|t0 ts0] eqn:Hts; [done|].
    rewrite decide_True by done.
    unfold bind at 1. rewrite cancel_each_eval.
    unfold bind at 1, modify.
    match goal with |- context [ctx_send X ctx ?p ?w1] =>
      assert (undisturbed 1 w1) as Hu1 by done;
      destruct (ctx_send_undisturbed X ctx p 0 w1 Hu1)
        as (w' & -> & He & _ & _ & _ & _ & Ht & _) end.
    eexists _, w', _. by rewrite Ht, He.
Qed.

(** ** The token and the size of a result *)

Lemma startswith_app p s : PyStr.startswith p (p ++ s) = true.
Proof. induction p as [|a p IH]; simpl; [done|]. by rewrite decide_True. Qed.

Lemma replace_from_skip old new pre s :
  PyStr.replace_from old new (length pre) (pre ++ s)
  = PyStr.replace_from old new 0 s.
Proof. induction pre as [|c pre IH]; simpl; [done|]. by destruct s. Qed.

(** [replace] takes an occurrence at the front whole and goes on behind it. *)
Lemma replace_occurrence old new s :
  old ≠ [] →
  PyStr.replace old new (old ++ s) = new ++ PyStr.replace old new s.
Proof.
  destruct old as [|o old']; [done|]. intros _.
  unfold PyStr.replace.
  change ((o :: old') ++ s) with (o :: (old' ++ s)).
  cbn [PyStr.replace_from].
  change (o :: old' ++ s) with ((o :: old') ++ s).
  rewrite startswith_app. f_equal.
  replace (length (o :: old') - 1) with (length old') by (simpl; lia).
  apply replace_from_skip.
Qed.

(** Where no occurrence starts, [replace] keeps the character. *)
Lemma replace_other old new c s :
  old ≠ [] → PyStr.startswith old (c :: s) = false →
  PyStr.replace old new (c :: s) = c :: PyStr.replace old new s.
Proof.
  destruct old as [|o old']; [done|]. intros _ Hno.
  unfold PyStr.replace. cbn [PyStr.replace_from]. by rewrite Hno.
Qed.

Lemma result_handling_text X ctx result :
  textual result →
  jsk_python_result_handling X ctx result =
  let text := result_text X result in
  if length text <=? 2000 then
    ctx_send X ctx
      (Text (PyStr.replace (bot_token X) (py "[token omitted]")
               (if decide (PyStr.strip text = []) then [8203%N] else text)))
  else if use_file_check X ctx (length text) then
    match PyStr.encode_utf8 text with
    | Some bytes =>
        ctx_send X ctx
          (Upload {| file_name := py "output.py"; file_bytes := bytes |})
    | None => raise UnicodeEncodeError
    end
  else send_to X (output_pages ctx text) ctx.
Proof. by destruct result. Qed.

(** C10: for a result that is sent as text, the token is replaced by
    [[token omitted]] exactly when the text has at most 2000 characters; a
    longer text goes out as the bytes of the text itself in a file, or as
    the text itself in the paginator. *)
Theorem token_is_omitted_only_from_short_text X ctx result bytes (w : World) :
  textual result → undisturbed 1 w →
  let text := result_text X result in
  let w' := (jsk_python_result_handling X ctx result w).2 in
  (length text ≤ 2000 →
   events w' =
     Sent (ctx_channel ctx)
       (Text (PyStr.replace (bot_token X) (py "[token omitted]")
                (if decide (PyStr.strip text = []) then [8203%N] else text)))
     :: events w)
  ∧ (2000 < length text → use_file_check X ctx (length text) = true →
     PyStr.encode_utf8 text = Some bytes →
     events w' =
       Sent (ctx_channel ctx)
         (Upload {| file_name := py "output.py"; file_bytes := bytes |})
       :: events w)
  ∧ (2000 < length text → use_file_check X ctx (length text) = false →
     events w' =
       Sent (ctx_channel ctx) (Pages (output_pages ctx text)) :: events w
     ∧ pg_lines (if_paginator (output_pages ctx text)) = [text]).
Proof.
  intros Ht Hu text w'. subst w'.
  rewrite (result_handling_text X ctx result Ht). fold text. cbv zeta.
  split; [|split].
  - intros Hlen. apply Nat.leb_le in Hlen. rewrite Hlen.
    match goal with |- context [ctx_send X ctx ?p w] =>
      destruct (ctx_send_undisturbed X ctx p 0 w Hu) as (w1 & -> & He & _) end.
    exact He.
  - intros Hlen Hfile Hbytes. apply Nat.leb_gt in Hlen.
    rewrite Hlen, Hfile, Hbytes.
    match goal with |- context [ctx_send X ctx ?p w] =>
      destruct (ctx_send_undisturbed X ctx p 0 w Hu) as (w1 & -> & He & _) end.
    exact He.
  - intros Hlen Hfile. apply Nat.leb_gt in Hlen. rewrite Hlen, Hfile.
    destruct (send_to_undisturbed X (output_pages ctx text) ctx 0 w Hu)
      as (w1 & -> & He & _).
    by split.
Qed.

(** * The commands at work on a small host *)

(** The three ways out of [jsk_python]: the source ends, the source
    raises, the invocation is cancelled while the source waits. *)
Lemma three_ways_out_of_jsk_python :
  (jsk_python demo demo_ctx (codeblock "1+1") demo_world).1 = Ok tt
  ∧ (jsk_python demo demo_ctx (codeblock "raise ValueError") demo_world).1
    = Raised (HostError 2)
  ∧ (jsk_python demo demo_ctx (codeblock "await asyncio.sleep(1)")
       (with_faults [None; Some CancelledError] demo_world)).1
    = Raised CancelledError
  ∧ scope_lookup
      (jsk_python demo demo_ctx (codeblock "await asyncio.sleep(1)")
         (with_faults [None; Some CancelledError] demo_world)).2
      0 (py "_author") = None
  ∧ scope_lookup
      (jsk_python demo demo_ctx (codeblock "x = 5") demo_world).2 0 (py "x")
    = Some (VInt 5).
Proof.
  split; [vm_compute; reflexivity|]. split; [vm_compute; reflexivity|].
  split; [vm_compute; reflexivity|]. split; vm_compute; reflexivity.
Qed.

(** With retention on, what one invocation binds is there for the next;
    with retention off it is not. *)
Lemma bindings_survive_with_retention :
  let after w := (jsk_python demo demo_ctx (codeblock "x = 5") w).2 in
  scope_lookup (after demo_world) (scope_of (after demo_world)) (py "x")
  = Some (VInt 5)
  ∧ scope_lookup (after (with_retain false demo_world))
      (scope_of (after (with_retain false demo_world))) (py "x")
    = None.
Proof. split; vm_compute; reflexivity. Qed.

(** C2 at work.  The message that invokes the command mentions user 77
    and the source is the mention.  [jsk_python] makes its executor
    without a table and without the name [__user_mention_0]: the source
    does not parse, nothing is retried and nothing is sent.  [jsk_repl],
    started by the same message, makes its executor with the table and
    the name, and the user comes out. *)
Lemma jsk_python_leaves_the_mention_unparsed :
  let arg_dict := invocation_arg_dict demo demo_ctx demo_world in
  let table := [(py "<@77>", py "__user_mention_0")] in
  let named := <[py "__user_mention_0" := VUser demo_user]> arg_dict in
  let said :=
    {| msg_id := 101; msg_author := 5; msg_channel := 9;
       msg_content := py "<@77>"; msg_mentions := [];
       msg_channel_mentions := []; msg_role_mentions := [] |} in
  events (jsk_python demo demo_ctx (codeblock "<@77>") demo_world).2
  = [ClearIntersection 0 arg_dict;
     ExecutorCreated (py "<@77>") 0 arg_dict None]
  ∧ arg_dict !! py "__user_mention_0" = None
  ∧ parse demo (py "<@77>") None = None
  ∧ parse demo (py "<@77>") (Some table) = compile demo (py "__user_mention_0")
  ∧ (jsk_python_get_convertables demo demo_ctx demo_world).1
    = Ok (named, table)
  ∧ take 4 (events (jsk_repl demo demo_ctx [reply 3 "<@77>"] demo_world).2)
    = [Sent 9 (Text (py "Exiting..."));
       ClearIntersection 0 (with_response said named);
       Sent 9 (Text (py "<User id=77>"));
       ExecutorCreated (py "<@77>") 0 (with_response said named) (Some table)].
Proof.
  intros arg_dict table named said.
  split; [vm_compute; reflexivity|]. split; [vm_compute; reflexivity|].
  split; [vm_compute; reflexivity|]. split; [vm_compute; reflexivity|].
  split; vm_compute; reflexivity.
Qed.

(** C3 does not hold of [jsk_python_inspect]: a source whose only result
    is [None] has its inspection sent and replaces the stored last result. *)
Lemma jsk_python_inspect_renders_None :
  let w := with_last_result (VInt 7) demo_world in
  produces_only_None demo (py "None") None
  ∧ ¬ skips_None (inspect_body demo demo_ctx)
  ∧ ¬ silently w (jsk_python_inspect demo demo_ctx (codeblock "None") w).2.
Proof.
  split; [|split].
  - intros code H. vm_compute in H. injection H as <-. by repeat constructor.
  - intros H. specialize (H demo_world). vm_compute in H. discriminate H.
  - intros [H _]. vm_compute in H. discriminate H.
Qed.

Lemma None_is_skipped_witness :
  let w := with_last_result (VInt 7) demo_world in
  produces_only_None demo (py "None") None
  ∧ silently w (jsk_python demo demo_ctx (codeblock "None") w).2.
Proof.
  assert (produces_only_None demo (py "None") None) as Hsrc.
  { intros code H. vm_compute in H. injection H as <-. by repeat constructor. }
  split; [exact Hsrc|].
  destruct (None_is_skipped_by_py_and_repl demo demo_ctx (codeblock "None")
              0 ∅ [] (λ _, Finish) (Text [])
              (with_last_result (VInt 7) demo_world))
    as (_ & _ & Hpy & _).
  exact (Hpy Hsrc).
Defined.

Lemma rendering_is_sent_back_witness :
  let sent :=
    VMessage {| msg_id := 0; msg_author := 1; msg_channel := 9;
                msg_content := py "1"; msg_mentions := [];
                msg_channel_mentions := []; msg_role_mentions := [] |} in
  let w1 :=
    (jsk_python_result_handling demo demo_ctx (VInt 1)
       (with_last_result (VInt 1) demo_world)).2 in
  VInt 1 ≠ VNone
  ∧ is_Some (heap demo_world !! 0)
  ∧ scope_lookup (assign 0 (py "_") sent w1).2 0 (py "_") = Some sent
  ∧ scope_lookup
      (jsk_python demo demo_ctx (codeblock "1; seen = _") demo_world).2
      0 (py "seen") = Some sent.
Proof.
  intros sent w1.
  assert (VInt 1 ≠ VNone) as Hne by discriminate.
  assert (is_Some (heap demo_world !! 0)) as Hsc
    by (eexists; vm_compute; reflexivity).
  split; [exact Hne|]. split; [exact Hsc|].
  split; [|vm_compute; reflexivity].
  destruct (rendering_is_sent_back_to_the_executor demo demo_ctx 0 (VInt 1)
              (λ _, Finish) sent demo_world w1 Hne Hsc)
    as (_ & Hbound & _); [vm_compute; reflexivity|].
  exact Hbound.
Defined.

Lemma idle_session_witness :
  let w := with_repl_sessions {[9%Z]} demo_world in
  let late := [reply 601 "1+1"] in
  wait_for (check demo demo_ctx) REPL_TIMEOUT late = None
  ∧ undisturbed 2 w ∧ 9%Z ∈ repl_sessions w
  ∧ ∃ w',
      repl_loop demo demo_ctx 0 [] late ∅ w = (Ok tt, w')
      ∧ events w' = Sent 9 (Text (py "Exiting...")) :: events w
      ∧ repl_sessions w' = repl_sessions w ∖ {[9%Z]}.
Proof.
  intros w late.
  assert (wait_for (check demo demo_ctx) REPL_TIMEOUT late = None) as Hwait
    by reflexivity.
  assert (undisturbed 2 w) as Hu by (vm_compute; constructor).
  assert (9%Z ∈ repl_sessions w) as Hin by (by vm_compute).
  split; [exact Hwait|]. split; [exact Hu|]. split; [exact Hin|].
  destruct (idle_session_is_torn_down demo demo_ctx 0 [] late ∅ w Hwait)
    as (_ & Hloop & _).
  exact (Hloop Hu Hin).
Defined.

Lemma cancel_witness :
  let task n :=
    {| task_index := n; task_ctx := demo_ctx; task_handle := Z.to_nat n |} in
  let w := with_tasks [task 1%Z; task 2%Z] demo_world in
  undisturbed 1 w
  ∧ no_such_task 7 (tasks w)
  ∧ (∃ sent w' text,
       jsk_cancel demo demo_ctx (IndexInt 7) w = (Ok sent, w')
       ∧ tasks w' = tasks w
       ∧ events w' = Sent 9 (Text text) :: events w)
  ∧ (∃ sent w',
       jsk_cancel demo demo_ctx (IndexInt (-1)) w = (Ok sent, w')
       ∧ tasks w' = [task 1%Z]
       ∧ events w' =
           Sent 9 (Text (cancelled_text (task 2%Z)))
           :: CancelRequested 2 :: events w).
Proof.
  intros task w.
  assert (undisturbed 1 w) as Hu by (vm_compute; constructor).
  assert (no_such_task 7 (tasks w)) as Hno.
  { intros t Ht. simpl in Ht.
    repeat (apply elem_of_cons in Ht as [->|Ht]; [discriminate|]).
    by apply elem_of_nil in Ht. }
  split; [exact Hu|]. split; [exact Hno|].
  destruct (cancel_removes_what_is_there demo demo_ctx 7 w Hu)
    as (Habsent & _ & Hlast & _).
  split.
  - apply Habsent; [exact Hno|discriminate].
  - exact (Hlast [task 1%Z] (task 2%Z) eq_refl).
Defined.


Lemma token_witness :
  let short := VStr (py "the token is TOKEN") in
  let long := VStr (replicate 2001 65%N ++ py "TOKEN") in
  textual short ∧ undisturbed 1 demo_world
  ∧ length (result_text demo short) ≤ 2000
  ∧ 2000 < length (result_text demo long)
  ∧ events (jsk_python_result_handling demo demo_ctx short demo_world).2
    = [Sent 9 (Text (py "the token is [token omitted]"))]
  ∧ events (jsk_python_result_handling demo demo_ctx long demo_world).2
    = [Sent 9
         (Upload {| file_name := py "output.py";
                    file_bytes := replicate 2001 65%N ++ py "TOKEN" |})].
Proof.
  intros short long.
  assert (undisturbed 1 demo_world) as Hu by (vm_compute; constructor).
  assert (length (result_text demo short) ≤ 2000) as Hshort
    by (apply Nat.leb_le; vm_compute; reflexivity).
  assert (2000 < length (result_text demo long)) as Hlong
    by (apply Nat.ltb_lt; vm_compute; reflexivity).
  split; [exact I|]. split; [exact Hu|]. split; [exact Hshort|].
  split; [exact Hlong|]. split.
  - destruct (token_is_omitted_only_from_short_text demo demo_ctx short []
                demo_world I Hu) as (H & _).
    exact (H Hshort).
  - destruct (token_is_omitted_only_from_short_text demo demo_ctx long
                (replicate 2001 65%N ++ py "TOKEN") demo_world I Hu)
      as (_ & H & _).
    apply (H Hlong); vm_compute; reflexivity.
Defined.

Lemma retain_toggle_witness :
  let off := (jsk_retain demo demo_ctx (Some false) demo_world).2 in
  let later :=
    [Python demo_ctx (codeblock "x = 5"); Retain demo_ctx (Some true);
     Python demo_ctx (codeblock "1+1"); Repl demo_ctx [reply 3 "quit()"]] in
  _scope demo_world ∈ dom (heap demo_world)
  ∧ scope_of (run_commands demo later off) ≠ _scope demo_world.
Proof.
  intros off later.
  assert (_scope demo_world ∈ dom (heap demo_world)) as Hin.
  { apply elem_of_dom. eexists. vm_compute. reflexivity. }
  split; [exact Hin|].
  pose proof (proj1 (retain_toggle_starts_from_an_empty_Scope demo demo_ctx
                       demo_ctx later demo_world)) as H.
  change (retain demo_world) with true in H. cbv iota in H.
  destruct H as (_ & _ & _ & _ & H). exact (H Hin).
Defined.

(** * Further properties of the commands *)

(** ** The substitution table *)

#[global] Instance N_of_ascii_inj : Inj (=) (=) Ascii.N_of_ascii.
Proof.
  intros a b Hab.
  rewrite <- (Ascii.ascii_N_embedding a), <- (Ascii.ascii_N_embedding b).
  by rewrite Hab.
Qed.

#[global] Instance py_inj : Inj (=) (=) py.
Proof.
  intros s t H. unfold py in H.
  apply (list_fmap_eq_inj _ N_of_ascii_inj) in H.
  rewrite <- (String.string_of_list_ascii_of_string s),
    <- (String.string_of_list_ascii_of_string t). by rewrite H.
Qed.

Lemma mention_name_inj kind kind' i j :
  kind ∈ ["user"; "channel"; "role"] → kind' ∈ ["user"; "channel"; "role"] →
  mention_name kind i = mention_name kind' j → kind = kind' ∧ i = j.
Proof.
  assert (∀ k, mention_name k i = mention_name k j → i = j) as Hsame.
  { intros k H. unfold mention_name, PyStr.of_int in H.
    do 3 apply app_inv_head in H. apply (inj py), (inj pretty) in H. lia. }
  intros Hk Hk'.
  repeat (apply elem_of_cons in Hk as [->|Hk]);
    [| | |by apply elem_of_nil in Hk];
    (repeat (apply elem_of_cons in Hk' as [->|Hk']);
     [| | |by apply elem_of_nil in Hk']);
    intros H; first [by split; [|apply Hsame in H] | by cbn in H].
Qed.

(** [d[k] = v] leaves the keys in their order; a new key goes to the end. *)
Lemma dict_set_keys k v d :
  (dict_set k v d).*1 = if decide (k ∈ d.*1) then d.*1 else d.*1 ++ [k].
Proof.
  induction d as [|[k' v'] d IH]; [done|]. cbn [dict_set].
  destruct (decide (k = k')) as [->|Hne]; rewrite !fmap_cons; cbn [fst].
  - rewrite decide_True; [done|]. apply elem_of_cons. by left.
  - rewrite IH. destruct (decide (k ∈ d.*1)) as [Hin|Hnin].
    + rewrite decide_True; [done|]. apply elem_of_cons. by right.
    + rewrite decide_False; [done|].
      intros [?|?]%elem_of_cons; done.
Qed.

Lemma elem_of_dict_set k v d m n :
  NoDup d.*1 → (m, n) ∈ dict_set k v d →
  (m = k ∧ n = v) ∨ (m ≠ k ∧ (m, n) ∈ d).
Proof.
  induction d as [|[k' v'] d IH]; simpl.
  - intros _ [= -> ->]%list_elem_of_singleton. by left.
  - intros [Hk' Hd]%NoDup_cons.
    destruct (decide (k = k')) as [->|Hne].
    + intros [[= -> ->]|Hin]%elem_of_cons; [by left|]. right. split.
      * intros ->. apply Hk'.
        by apply (list_elem_of_fmap_2 fst) in Hin.
      * apply elem_of_cons. by right.
    + intros [[= -> ->]|Hin]%elem_of_cons.
      * right. split; [done|]. apply elem_of_cons. by left.
      * destruct (IH Hd Hin) as [?|[? ?]]; [by left|]. right. split; [done|].
        apply elem_of_cons. by right.
Qed.

Lemma table_ok_weaken (names names' covered covered' : pystr → Prop) acc :
  (∀ n, names n → names' n) → (∀ m, covered m ↔ covered' m) →
  table_ok names covered acc → table_ok names' covered' acc.
Proof.
  intros Hn Hc (Hd & Hcov & Hent). split; [done|]. split.
  - intros m. by rewrite Hcov.
  - intros m n Hin. destruct (Hent m n Hin) as [? ?]. auto.
Qed.

(** One pass of a loop of [jsk_python_get_convertables]. *)
Lemma table_ok_step names covered arg_dict table name (v : value) token :
  table_ok names covered (arg_dict, table) →
  ¬ names name → value_mention v = Some token →
  table_ok (λ n, names n ∨ n = name) (λ m, covered m ∨ m = token)
    (<[name := v]> arg_dict, dict_set token name table).
Proof.
  intros (Hd & Hcov & Hent) Hnew Hv. simpl in *. split; [|split]; simpl.
  - rewrite dict_set_keys. case_decide as Hin; [done|].
    apply NoDup_app. split; [done|]. split; [|apply NoDup_singleton].
    intros x Hx ->%list_elem_of_singleton. done.
  - intros m. rewrite dict_set_keys. case_decide as Hin.
    + rewrite Hcov. split; [by left|]. intros [?| ->]; [done|]. by apply Hcov.
    + by rewrite elem_of_app, list_elem_of_singleton, Hcov.
  - intros m n Hin.
    destruct (elem_of_dict_set _ _ _ _ _ Hd Hin) as [[-> ->]|[Hne Hin']].
    + split; [by right|]. exists v. by rewrite lookup_insert_eq.
    + destruct (Hent m n Hin') as (Hn & v0 & Hl & Hm). split; [by left|].
      exists v0. split; [|done]. rewrite lookup_insert_ne; [done|].
      by intros ->.
Qed.

(** A whole loop, from the index [off] on. *)
Lemma table_ok_loop kind mk l :
  kind ∈ ["user"; "channel"; "role"] →
  (∀ e, value_mention (mk e) = Some (ent_mention e)) →
  ∀ off names covered acc,
    table_ok names covered acc →
    (∀ j, off ≤ j → ¬ names (mention_name kind j)) →
    table_ok
      (λ n, names n ∨ ∃ j, n = mention_name kind j)
      (λ m, covered m ∨ ∃ e, e ∈ l ∧ m = ent_mention e)
      (fold_left
         (λ '(arg_dict, convertables) '(index, e),
            (<[mention_name kind index := mk e]> arg_dict,
             dict_set (ent_mention e) (mention_name kind index) convertables))
         (imap (λ j e, (off + j, e)) l) acc).
Proof.
  intros Hkind Hmk. induction l as [|e l IH]; intros off names covered acc Hok Hfree.
  - simpl. eapply table_ok_weaken; [| |exact Hok].
    + by left.
    + intros m. split; [by left|]. intros [?|(e & []%elem_of_nil & _)]. done.
  - rewrite imap_cons. cbn [fold_left]. destruct acc as [arg_dict table].
    rewrite (imap_ext _ (λ j e, (S off + j, e)))
      by (intros; unfold compose; f_equal; lia).
    assert (¬ names (mention_name kind (off + 0))) as Hnew
      by (apply Hfree; lia).
    pose proof (table_ok_step names covered arg_dict table
                  (mention_name kind (off + 0)) (mk e) (ent_mention e)
                  Hok Hnew (Hmk e)) as Hstep.
    apply (IH (S off)) in Hstep.
    2:{ intros j Hj [Hn|Heq].
        - apply (Hfree j); [lia|done].
        - apply mention_name_inj in Heq as [_ ?]; [lia|done..]. }
    eapply table_ok_weaken; [| |exact Hstep].
    + intros n [[?| ->]|?]; [by left| |by right]. right. by eexists.
    + intros m. split.
      * intros [[?| ->]|(e' & ? & ->)]; [by left| |].
        -- right. exists e. split; [|done]. apply elem_of_cons. by left.
        -- right. exists e'. split; [|done]. apply elem_of_cons. by right.
      * intros [?|(e' & [->|?]%elem_of_cons & ->)].
        -- by left; left.
        -- by left; right.
        -- right. by exists e'.
Qed.

Lemma bind_mentions_ok kind mk l names covered acc :
  kind ∈ ["user"; "channel"; "role"] →
  (∀ e, value_mention (mk e) = Some (ent_mention e)) →
  table_ok names covered acc →
  (∀ j, ¬ names (mention_name kind j)) →
  table_ok
    (λ n, names n ∨ ∃ j, n = mention_name kind j)
    (λ m, covered m ∨ ∃ e, e ∈ l ∧ m = ent_mention e)
    (bind_mentions kind mk l acc).
Proof.
  intros Hkind Hmk Hok Hfree.
  apply (table_ok_loop kind mk l Hkind Hmk 0 names covered acc Hok).
  intros j _. apply Hfree.
Qed.

(** The loops leave the other names of the argument dict alone. *)
Lemma bind_mentions_other kind mk l acc k :
  (∀ j, k ≠ mention_name kind j) →
  (bind_mentions kind mk l acc).1 !! k = acc.1 !! k.
Proof.
  intros Hk. unfold bind_mentions.
  generalize (λ (index : nat) (e : Entity), (index, e)). intros f.
  revert f acc. induction l as [|e l IH]; intros f acc; [done|].
  rewrite imap_cons. cbn [fold_left]. rewrite IH.
  destruct acc as [arg_dict table]. destruct (f 0 e) as [index e'] eqn:Hf.
  simpl. by rewrite lookup_insert_ne.
Qed.

Lemma jsk_python_get_convertables_ok X ctx w :
  ∃ arg_dict table,
    jsk_python_get_convertables X ctx w = (Ok (arg_dict, table), w)
    ∧ table_ok is_mention_name (λ m, ∃ e, e ∈ mentioned ctx ∧ m = ent_mention e)
        (arg_dict, table)
    ∧ ∀ k, ¬ is_mention_name k →
        arg_dict !! k = invocation_arg_dict X ctx w !! k.
Proof.
  unfold jsk_python_get_convertables, bind, get, ret.
  set (base := <[py "_":=last_result w]> _).
  set (users := bind_mentions "user" _ _ _).
  set (channels := bind_mentions "channel" _ _ _).
  set (roles := bind_mentions "role" _ _ _).
  assert ("user" ∈ ["user"; "channel"; "role"]) as Hu by (apply elem_of_cons; by left).
  assert ("channel" ∈ ["user"; "channel"; "role"]) as Hc
    by (apply elem_of_cons; right; apply elem_of_cons; by left).
  assert ("role" ∈ ["user"; "channel"; "role"]) as Hr
    by (do 2 (apply elem_of_cons; right); apply elem_of_cons; by left).
  assert (table_ok (λ _, False) (λ _, False) (base, [])) as H0.
  { split; [constructor|]. split; simpl.
    - intros m. by rewrite elem_of_nil.
    - by intros m n []%elem_of_nil. }
  apply (bind_mentions_ok "user" VUser (msg_mentions (ctx_message ctx))) in H0;
    [|done|done|tauto]. fold users in H0.
  apply (bind_mentions_ok "channel" VChannel
           (msg_channel_mentions (ctx_message ctx))) in H0; [|done|done|].
  2:{ intros j [[]|[i Heq]]. by apply mention_name_inj in Heq as [? _]. }
  fold channels in H0.
  apply (bind_mentions_ok "role" VRole
           (msg_role_mentions (ctx_message ctx))) in H0; [|done|done|].
  2:{ intros j [[[]|[i Heq]]|[i Heq]];
        by apply mention_name_inj in Heq as [? _]. }
  fold roles in H0.
  exists roles.1, roles.2. split; [by destruct roles|]. split.
  - eapply table_ok_weaken; [| |exact H0].
    + intros n [[[[]|[j ->]]|[j ->]]|[j ->]];
        [by exists "user", j|by exists "channel", j|by exists "role", j].
    + intros m. unfold mentioned. split.
      * intros [[[[]|(e & ? & ->)]|(e & ? & ->)]|(e & ? & ->)];
          exists e; (split; [|done]); rewrite !elem_of_app; auto.
      * intros (e & [?|[?|?]%elem_of_app]%elem_of_app & ->);
          [left; left; right|left; right|right]; by exists e.
  - intros k Hk. unfold roles, channels, users.
    rewrite (bind_mentions_other "role")
      by (intros j ->; apply Hk; by exists "role", j).
    rewrite (bind_mentions_other "channel")
      by (intros j ->; apply Hk; by exists "channel", j).
    by rewrite (bind_mentions_other "user")
      by (intros j ->; apply Hk; by exists "user", j).
Qed.

(** X1: every entry of the table that [jsk_python_get_convertables] builds
    replaces a mention by a name that the argument dict binds to a user,
    channel or role with that mention; the table has one entry for each
    token that the message mentions; and the other names of the argument
    dict are as [get_var_dict_from_ctx] gave them, with [_] bound to the
    stored last result. *)
Theorem convertables_name_what_they_replace X ctx (w : World) :
  ∃ arg_dict table,
    jsk_python_get_convertables X ctx w = (Ok (arg_dict, table), w)
    ∧ (∀ m n, (m, n) ∈ table →
         is_mention_name n
         ∧ ∃ v, arg_dict !! n = Some v ∧ value_mention v = Some m)
    ∧ NoDup table.*1
    ∧ (∀ m, m ∈ table.*1 ↔ ∃ e, e ∈ mentioned ctx ∧ m = ent_mention e)
    ∧ arg_dict !! py "_" = Some (last_result w)
    ∧ (∀ k, ¬ is_mention_name k → k ≠ py "_" →
         arg_dict !! k = get_var_dict_from_ctx X ctx (SCOPE_PREFIX X) !! k).
Proof.
  destruct (jsk_python_get_convertables_ok X ctx w)
    as (arg_dict & table & Heq & (Hd & Hcov & Hent) & Hother).
  exists arg_dict, table. split; [done|]. split; [exact Hent|].
  split; [exact Hd|]. split; [exact Hcov|]. split.
  - rewrite Hother.
    + unfold invocation_arg_dict. by rewrite lookup_insert_eq.
    + intros (kind & j & _ & Heq'). unfold mention_name in Heq'.
      by cbn in Heq'.
  - intros k Hk Hne. rewrite Hother by done.
    unfold invocation_arg_dict. by rewrite lookup_insert_ne.
Qed.

(** ** A session from its start *)

Lemma jsk_python_get_convertables_eval X ctx w :
  ∃ arg_dict table,
    jsk_python_get_convertables X ctx w = (Ok (arg_dict, table), w).
Proof.
  unfold jsk_python_get_convertables, bind, get, ret.
  destruct (bind_mentions _ _ _ _) as [arg_dict table]. by eexists _, _.
Qed.

(** [jsk_repl] up to its loop. *)
Lemma jsk_repl_unfold X ctx stream w arg_dict table :
  jsk_python_get_convertables X ctx w = (Ok (arg_dict, table), w) →
  jsk_repl X ctx stream w =
  if decide (ctx_channel ctx ∈ repl_sessions w) then
    (ctx_send X ctx (Text (py
       "Already running an interactive shell in this channel. Use `exit()` or `quit()` or exit.")) ;;
     ret tt) (scope w).2
  else
    (ctx_send X ctx
       (Text (box (py "Python " ++ PyStr.first_line (sys_version X)
                   ++ py " on " ++ sys_platform X ++ [10%N]) (py "py"))) ;;
     repl_loop X ctx (scope_of w) table stream arg_dict)
      (with_repl_sessions ({[ctx_channel ctx]} ∪ repl_sessions w) (scope w).2).
Proof.
  intros Heq. unfold jsk_repl, bind at 1. rewrite Heq.
  unfold bind at 1. rewrite scope_eval. cbn [snd]. unfold bind at 1, get.
  set (w0 := if retain w then w else _).
  assert (repl_sessions w0 = repl_sessions w) as Hs0
    by (unfold w0; by destruct (retain w)).
  rewrite Hs0. case_decide; [done|]. unfold bind at 1, modify.
  by rewrite Hs0.
Qed.

Lemma quietly_ctx_send X ctx p : keeps quietly (ctx_send X ctx p).
Proof. eapply (keeps_ctx_send X quietly is_Sent); footprint. Qed.


Lemma scope_events w : events (scope w).2 = events w.
Proof. rewrite scope_eval. simpl. by destruct (retain w). Qed.





(** ** The marker of a session *)

Lemma repl_exit_marker X ctx w o w' :
  ctx_channel ctx ∈ repl_sessions w →
  repl_exit X ctx w = (o, w') →
  repl_sessions w' =
  match o with
  | Ok _ => repl_sessions w ∖ {[ctx_channel ctx]}
  | Raised _ => repl_sessions w
  end.
Proof.
  intros Hin. unfold repl_exit, bind at 1.
  pose proof (ctx_send_same_feature X ctx (Text (py "Exiting...")) w)
    as (_ & Hs & _).
  destruct (ctx_send X ctx (Text (py "Exiting...")) w) as [[?|?] w1];
    simpl in Hs.
  - unfold repl_sessions_remove, bind, get, modify.
    rewrite decide_True by (by rewrite Hs).
    intros [= <- <-]. simpl. by rewrite Hs.
  - by intros [= <- <-].
Qed.

(** The loop releases the marker when it ends without an exception, and
    leaves it where an exception ends it. *)
Lemma repl_loop_marker X ctx sc convertables stream arg_dict w o w' :
  ctx_channel ctx ∈ repl_sessions w →
  repl_loop X ctx sc convertables stream arg_dict w = (o, w') →
  repl_sessions w' =
  match o with
  | Ok _ => repl_sessions w ∖ {[ctx_channel ctx]}
  | Raised _ => repl_sessions w
  end.
Proof.
  remember (length stream) as n eqn:Hn.
  revert stream arg_dict w Hn.
  induction (lt_wf n) as [n _ IH]. intros stream arg_dict w -> Hin.
  assert (∀ w1, repl_sessions w1 = repl_sessions w →
                repl_exit X ctx w1 = (o, w') →
                repl_sessions w' =
                match o with
                | Ok _ => repl_sessions w ∖ {[ctx_channel ctx]}
                | Raised _ => repl_sessions w
                end) as Hexit.
  { intros w1 Hs1 He. rewrite <- Hs1. eapply repl_exit_marker; [|exact He].
    by rewrite Hs1. }
  assert (∀ A (m : M A) w1 rest d,
            repl_sessions w1 = repl_sessions w →
            (∀ w0, repl_sessions (m w0).2 = repl_sessions w0) →
            length rest < length stream →
            (m ;; repl_loop X ctx sc convertables rest d) w1 = (o, w') →
            repl_sessions w' =
            match o with
            | Ok _ => repl_sessions w ∖ {[ctx_channel ctx]}
            | Raised _ => repl_sessions w
            end) as Hnext.
  { intros A m w1 rest d Hs1 Hm Hlen. unfold bind. specialize (Hm w1).
    destruct (m w1) as [[?|e] w2]; simpl in Hm.
    - intros Hloop. rewrite <- Hs1, <- Hm.
      eapply (IH _ Hlen rest d w2); [done| |exact Hloop].
      by rewrite Hm, Hs1.
    - intros [= <- <-]. by rewrite Hm, Hs1. }
  rewrite repl_loop_unfold.
  pose proof (await_point_cases w) as [[f Ha]|[e [f Ha]]]; rewrite Ha.
  - destruct (wait_for (check X ctx) REPL_TIMEOUT stream)
      as [[response rest]|] eqn:Hwait; [|by apply Hexit].
    apply wait_for_shorter in Hwait.
    unfold repl_respond. cbv zeta.
    case_bool_decide; [|case_bool_decide].
    + by apply Hexit.
    + apply Hnext; [done| |done]. intros w0.
      by destruct (ctx_send_same_feature X ctx
                     (Text (py "Use `"
                            ++ content (codeblock_converter X (msg_content response))
                            ++ py "()` to exit.")) w0) as (_ & ? & _).
    + apply Hnext; [done| |done]. intros w0.
      match goal with |- context [repl_execute X ctx sc ?d ?c ?a w0] =>
        by destruct (repl_execute_same_session X ctx sc d c a w0) as (? & _)
      end.
  - destruct e; try (by intros [= <- <-]). by apply Hexit.
Qed.

(** X3: a session releases the marker of its channel exactly when it
    returns: after [jsk_repl] in a channel without a session, the markers
    are as before if it returned, and the channel is still marked if an
    exception ended it (the exception of an input that the reactor does
    not handle, of a send, a cancellation). *)
Theorem marker_is_released_exactly_on_return X ctx stream (w : World) :
  ctx_channel ctx ∉ repl_sessions w →
  repl_sessions (jsk_repl X ctx stream w).2 =
  match (jsk_repl X ctx stream w).1 with
  | Ok _ => repl_sessions w
  | Raised _ => {[ctx_channel ctx]} ∪ repl_sessions w
  end.
Proof.
  intros Hnot.
  destruct (jsk_python_get_convertables_eval X ctx w) as (ad & table & Heq).
  rewrite (jsk_repl_unfold X ctx stream w ad table Heq).
  rewrite decide_False by done. unfold bind.
  match goal with |- context [ctx_send X ctx ?p ?w1] =>
    pose proof (ctx_send_same_feature X ctx p w1) as (_ & Hs1 & _);
    destruct (ctx_send X ctx p w1) as [[sent|e] w2] end; simpl in Hs1.
  - destruct (repl_loop X ctx (scope_of w) table stream ad w2)
      as [o w'] eqn:Hloop.
    apply repl_loop_marker in Hloop.
    2:{ rewrite Hs1. apply elem_of_union. left. by apply elem_of_singleton. }
    simpl. rewrite Hloop, Hs1.
    destruct o; [|done]. by apply marker_added_and_removed.
  - simpl. by rewrite Hs1.
Qed.

Lemma marker_witness :
  (ctx_channel demo_ctx ∉ repl_sessions demo_world)
  ∧ (jsk_repl demo demo_ctx [reply 3 "raise ValueError"] demo_world).1
    = Raised (HostError 2)
  ∧ repl_sessions
      (jsk_repl demo demo_ctx [reply 3 "raise ValueError"] demo_world).2
    = {[ctx_channel demo_ctx]} ∪ repl_sessions demo_world.
Proof.
  assert (ctx_channel demo_ctx ∉ repl_sessions demo_world) as Hnot
    by (vm_compute; discriminate).
  assert ((jsk_repl demo demo_ctx [reply 3 "raise ValueError"] demo_world).1
          = Raised (HostError 2)) as Hout by (vm_compute; reflexivity).
  split; [exact Hnot|]. split; [exact Hout|].
  pose proof (marker_is_released_exactly_on_return demo demo_ctx
                [reply 3 "raise ValueError"] demo_world Hnot) as H.
  rewrite Hout in H. exact H.
Defined.

(** ** What a session executes *)

Lemma adds_only_refl P w : adds_only P w w.
Proof. by exists []. Qed.

Lemma adds_only_trans P a b c :
  adds_only P a b → adds_only P b c → adds_only P a c.
Proof.
  intros (s1 & H1 & F1) (s2 & H2 & F2). exists (s2 ++ s1).
  split; [by rewrite H2, H1, app_assoc|by apply Forall_app].
Qed.

Lemma adds_only_same P w w' : events w' = events w → adds_only P w w'.
Proof. intros H. by exists []. Qed.

Lemma adds_only_emit P w e :
  P e → adds_only P w (with_events (e :: events w) w).
Proof. intros He. exists [e]. split; [done|by constructor]. Qed.

Ltac adding :=
  first
    [ exact (adds_only_refl _) | exact (adds_only_trans _)
    | exact (adds_only_emit _)
    | by (intros; apply adds_only_same) ].

Lemma with_response_but_for response d d0 :
  but_for_the_response d d0 →
  with_response response d = with_response response d0
  ∧ but_for_the_response (with_response response d) d0.
Proof.
  intros Hd. unfold with_response. split.
  - apply map_eq. intros k.
    destruct (decide (k = py "msg")) as [->|Hmsg];
      [by rewrite !lookup_insert_eq|].
    rewrite !(lookup_insert_ne _ (py "msg")) by done.
    destruct (decide (k = py "message")) as [->|Hmessage];
      [by rewrite !lookup_insert_eq|].
    rewrite !(lookup_insert_ne _ (py "message")) by done. by apply Hd.
  - intros k Hmessage Hmsg. rewrite !lookup_insert_ne by done. by apply Hd.
Qed.

(** What [wait_for] gives is a message of the stream that passes the
    check, and the messages after it. *)
Lemma wait_for_Some chk timeout stream response rest :
  wait_for chk timeout stream = Some (response, rest) →
  chk response = true
  ∧ response ∈ message <$> stream
  ∧ (∀ i, i ∈ rest → i ∈ stream).
Proof.
  revert timeout. induction stream as [|i s IH]; intros timeout; simpl.
  - done.
  - destruct (Qle_bool (delay i) timeout); [|done].
    destruct (chk (message i)) eqn:Hchk.
    + intros [= <- <-]. split; [done|]. split; [by left|].
      intros j Hj. by right.
    + intros H. destruct (IH _ H) as (? & ? & Hrest).
      split; [done|]. split; [by right|]. intros j Hj. right. by apply Hrest.
Qed.

Lemma repl_execute_adds_only X ctx sc arg_dict convertables argument P :
  (∀ c p, P (Sent c p)) → (∀ l d, P (ClearIntersection l d)) →
  P (ExecutorCreated (content argument) sc arg_dict (Some convertables)) →
  keeps (adds_only P) (repl_execute X ctx sc arg_dict convertables argument).
Proof.
  intros HS HC HE. unfold repl_execute.
  apply keeps_try_finally; [adding..| |].
  - eapply (keeps_execution X (adds_only P) P); try adding; [done|].
    intros code _. eapply keeps_async_for; try adding. intros result.
    eapply (keeps_python_body X (adds_only P) P); try adding. done.
  - eapply (keeps_clear_intersection (adds_only P) P); try adding. done.
Qed.

Lemma repl_exit_adds_only X ctx P :
  (∀ c p, P (Sent c p)) → keeps (adds_only P) (repl_exit X ctx).
Proof.
  intros HS. eapply (keeps_repl_exit X (adds_only P) P); try adding. done.
Qed.

Lemma ctx_send_adds_only X ctx p P :
  (∀ c p, P (Sent c p)) → keeps (adds_only P) (ctx_send X ctx p).
Proof.
  intros HS. eapply (keeps_ctx_send X (adds_only P) P); try adding. done.
Qed.

(** The loop of a session hands to an executor only what [P] allows, when
    [P] allows the accepted messages of the stream with the argument dict
    of the start. *)
Lemma repl_loop_adds_only X ctx sc table arg_dict0 P
    (stream0 : list Incoming) :
  (∀ c p, P (Sent c p)) → (∀ l d, P (ClearIntersection l d)) →
  (∀ response,
     response ∈ message <$> stream0 → check X ctx response = true →
     P (ExecutorCreated
          (content (codeblock_converter X (msg_content response))) sc
          (with_response response arg_dict0) (Some table))) →
  ∀ stream arg_dict,
    (∀ i, i ∈ stream → i ∈ stream0) →
    but_for_the_response arg_dict arg_dict0 →
    keeps (adds_only P) (repl_loop X ctx sc table stream arg_dict).
Proof.
  intros HS HC HE stream.
  remember (length stream) as n eqn:Hn. revert stream Hn.
  induction (lt_wf n) as [n _ IH]. intros stream -> arg_dict Hsub Hd w.
  rewrite repl_loop_unfold.
  assert (keeps (adds_only P) await_point) as Hawait
    by (eapply keeps_await_point; adding).
  specialize (Hawait w).
  destruct (await_point w) as [[[]|e] w1]; simpl in Hawait.
  - eapply adds_only_trans; [exact Hawait|].
    destruct (wait_for (check X ctx) REPL_TIMEOUT stream)
      as [[response rest]|] eqn:Hwait; [|by apply repl_exit_adds_only].
    pose proof (wait_for_shorter _ _ _ _ _ Hwait) as Hlen.
    destruct (wait_for_Some _ _ _ _ _ Hwait) as (Hchk & Hin & Hrest).
    assert (∀ d, but_for_the_response d arg_dict0 →
                 keeps (adds_only P) (repl_loop X ctx sc table rest d))
      as Hagain.
    { intros d Hd'. eapply (IH _ Hlen rest eq_refl d); [|done].
      intros i Hi. by apply Hsub, Hrest. }
    destruct (with_response_but_for response _ _ Hd) as [Heq Hd'].
    unfold repl_respond. cbv zeta.
    fold (with_response response arg_dict).
    case_bool_decide; [|case_bool_decide].
    + by apply repl_exit_adds_only.
    + apply keeps_bind; [adding..| |].
      * by apply ctx_send_adds_only.
      * intros _. by apply Hagain.
    + apply keeps_bind; [adding..| |].
      * apply repl_execute_adds_only; [done..|]. rewrite Heq. apply HE; [|done].
        apply list_elem_of_fmap in Hin as (i & -> & Hi).
        apply list_elem_of_fmap_2. by apply Hsub.
      * intros _. by apply Hagain.
  - destruct e; try exact Hawait.
    eapply adds_only_trans; [exact Hawait|]. by apply repl_exit_adds_only.
Qed.

(** X4: whatever the stream and whatever is thrown in at the wait points,
    a session hands to an executor only the contents of messages of the
    stream that pass the check (author and channel of the invocation, and
    the prefix if it is required), each on the Scope that the [scope]
    property gave when the session started, with the substitution table of
    the message that started the session, and with the argument dict of
    the start -- [_] included, as the stored last result was then -- in
    which [message] and [msg] are the message that is executed. *)
Theorem session_executes_what_its_author_wrote X ctx stream (w : World) :
  adds_only (of_the_session X ctx w stream) w (jsk_repl X ctx stream w).2.
Proof.
  destruct (jsk_python_get_convertables_eval X ctx w) as (ad & table & Heq).
  rewrite (jsk_repl_unfold X ctx stream w ad table Heq).
  set (P := of_the_session X ctx w stream).
  assert (∀ c p, P (Sent c p)) as HS by done.
  assert (adds_only P w (scope w).2) as Hscope
    by (apply adds_only_same, scope_events).
  eapply adds_only_trans; [exact Hscope|].
  case_decide.
  - apply keeps_bind; [adding..| |intros; apply keeps_ret; adding].
    by apply ctx_send_adds_only.
  - eapply (adds_only_trans _ _
              (with_repl_sessions ({[ctx_channel ctx]} ∪ repl_sessions w)
                 (scope w).2)); [by apply adds_only_same|].
    apply keeps_bind; [adding..| |].
    + by apply ctx_send_adds_only.
    + intros _. apply (repl_loop_adds_only X ctx (scope_of w) table ad P stream);
        try done.
      intros response Hin Hchk. by exists ad, table, response.
Qed.

(** ** The prefix and the words that leave a session *)




(** ** The stored last result *)

Lemma stores_no_None_refl w : stores_no_None w w.
Proof. by left. Qed.

Lemma stores_no_None_trans a b c :
  stores_no_None a b → stores_no_None b c → stores_no_None a c.
Proof.
  unfold stores_no_None. intros [Hab|Hab] [Hbc|Hbc]; try (by right).
  - left. congruence.
  - right. congruence.
Qed.

Lemma stores_no_None_same w w' :
  last_result w' = last_result w → stores_no_None w w'.
Proof. by left. Qed.

Ltac no_None :=
  first
    [ exact stores_no_None_refl | exact stores_no_None_trans
    | by (intros; apply stores_no_None_same)
    | by (intros; cbn) ].

Lemma python_body_stores_no_None X ctx result :
  keeps stores_no_None (python_body X ctx result).
Proof.
  intros w. unfold python_body.
  assert (result ≠ VNone →
          stores_no_None w
            ((modify (with_last_result result) ;;
              sent <- jsk_python_result_handling X ctx result ;;
              ret (Some sent)) w).2) as H.
  { intros Hne. unfold bind at 1, modify.
    match goal with |- stores_no_None _ (?m ?w1).2 =>
      assert (keeps same_feature m) as Hk end.
    { apply keeps_bind; [frame..| |intros; apply keeps_ret; frame].
      apply jsk_python_result_handling_same_feature. }
    right. by destruct (Hk (with_last_result result w)) as (-> & _). }
  destruct result; first [apply stores_no_None_refl | by apply H].
Qed.

Lemma execution_stores_no_None X ctx sc source arg_dict convertables :
  keeps stores_no_None
    (try_finally
       (ReplResponseReactor X
          (submit ctx
             (executor <- AsyncCodeExecutor X source sc arg_dict convertables ;;
              async_for sc (python_body X ctx) executor)))
       (clear_intersection sc arg_dict)).
Proof.
  apply keeps_try_finally; [no_None..| |].
  - eapply (keeps_execution X stores_no_None (λ _, True)); try no_None.
    intros code _. eapply keeps_async_for; try no_None.
    apply python_body_stores_no_None.
  - eapply (keeps_clear_intersection stores_no_None (λ _, True)); no_None.
Qed.

(** X6: [jsk_python] and a whole [jsk_repl] session never put [None] in
    the place of the stored last result: after them it is what it was, or
    a result that is not [None] -- whatever code ran, however it ended. *)
Theorem last_result_is_never_reset X ctx argument stream (w : World) :
  stores_no_None w (jsk_python X ctx argument w).2
  ∧ stores_no_None w (jsk_repl X ctx stream w).2.
Proof.
  split.
  - unfold jsk_python. apply keeps_get_bind; [no_None..|]. intros w0.
    apply keeps_bind; [no_None..| |].
    + eapply (keeps_scope stores_no_None); no_None.
    + intros sc. apply execution_stores_no_None.
  - eapply (keeps_jsk_repl X stores_no_None (λ _, True)); try no_None.
    intros. apply execution_stores_no_None.
Qed.

(** ** The text of a result on its way to the chat *)

Lemma startswith_length p s :
  PyStr.startswith p s = true → length p ≤ length s.
Proof.
  revert s. induction p as [|a p IH]; intros [|b s]; simpl; try done; [lia|].
  case_decide; [|done]. intros Hs. apply IH in Hs. lia.
Qed.

(** A replacement that is no longer than what it replaces does not make
    the text longer. *)
Lemma replace_from_length old new skip s :
  length new ≤ length old →
  length (PyStr.replace_from old new skip s) + min skip (length s) ≤ length s.
Proof.
  intros Hn. revert skip.
  induction s as [|c s IH]; intros skip; [simpl; lia|].
  cbn [PyStr.replace_from]. destruct skip as [|k].
  - destruct (PyStr.startswith old (c :: s)) eqn:Hs.
    + apply startswith_length in Hs. rewrite length_app.
      specialize (IH (length old - 1)). simpl in *. lia.
    + specialize (IH 0). simpl in *. lia.
  - specialize (IH k). simpl. lia.
Qed.

Lemma replace_length old new s :
  old ≠ [] → length new ≤ length old →
  length (PyStr.replace old new s) ≤ length s.
Proof.
  destruct old as [|o old']; [done|]. intros _ Hn. unfold PyStr.replace.
  pose proof (replace_from_length (o :: old') new 0 s Hn). lia.
Qed.

Lemma replace_nonempty old new s :
  new ≠ [] → s ≠ [] → PyStr.replace old new s ≠ [].
Proof.
  intros Hnew Hs. destruct s as [|c s]; [done|].
  destruct old as [|o old']; unfold PyStr.replace.
  - by destruct new.
  - cbn [PyStr.replace_from].
    destruct (PyStr.startswith (o :: old') (c :: s)); [by destruct new|done].
Qed.

(** X7: a result that [jsk_python_result_handling] answers without
    calling [repr] and without filling a paginator (a message, a file, an
    embed, a paginator interface, a [str] that is short or is to go out as
    a file) is answered with one message, and the attributes of the
    feature stay as they are; the one way past that is a [str] of more
    than 2000 characters that UTF-8 cannot encode, which raises
    [UnicodeEncodeError] before anything is sent. *)
Theorem direct_results_are_answered_once X ctx result (w : World) :
  answered_directly X ctx result → undisturbed 1 w →
  same_feature w (jsk_python_result_handling X ctx result w).2
  ∧ ((∃ sent p w',
        jsk_python_result_handling X ctx result w = (Ok sent, w')
        ∧ events w' = Sent (ctx_channel ctx) p :: events w)
     ∨ (jsk_python_result_handling X ctx result w = (Raised UnicodeEncodeError, w)
        ∧ ∃ s, result = VStr s ∧ 2000 < length s
               ∧ use_file_check X ctx (length s) = true
               ∧ PyStr.encode_utf8 s = None)).
Proof.
  intros Hdirect Hu. split; [apply jsk_python_result_handling_same_feature|].
  assert (∀ p, ∃ sent p' w',
            ctx_send X ctx p w = (Ok sent, w')
            ∧ events w' = Sent (ctx_channel ctx) p' :: events w) as Hsend.
  { intros p. destruct (ctx_send_undisturbed X ctx p 0 w Hu) as (w1 & H & He & _).
    by eexists _, p, w1. }
  assert (∀ i, ∃ sent p' w',
            send_to X i ctx w = (Ok sent, w')
            ∧ events w' = Sent (ctx_channel ctx) p' :: events w) as Hto.
  { intros i. destruct (send_to_undisturbed X i ctx 0 w Hu) as (w1 & H & He & _).
    by eexists _, (Pages i), w1. }
  destruct result as [|s| | | | |m|f|e|i|]; try done;
    try (left; simpl; by auto).
  rewrite (result_handling_text X ctx (VStr s) I). cbv zeta.
  change (result_text X (VStr s)) with s.
  destruct (length s <=? 2000) eqn:Hlen; [by left|].
  apply Nat.leb_gt in Hlen.
  destruct Hdirect as [Hshort|Hfile]; [lia|]. rewrite Hfile.
  destruct (PyStr.encode_utf8 s) eqn:Henc; [by left|].
  right. split; [done|]. by exists s.
Qed.

Lemma direct_results_are_answered_once_witness :
  let long := VStr (replicate 2001 65%N ++ [55296%N]) in
  answered_directly demo demo_ctx (VEmbed 1)
  ∧ answered_directly demo demo_ctx long
  ∧ undisturbed 1 demo_world
  ∧ (∃ sent p w',
       jsk_python_result_handling demo demo_ctx (VEmbed 1) demo_world
       = (Ok sent, w')
       ∧ events w' = Sent (ctx_channel demo_ctx) p :: events demo_world)
  ∧ jsk_python_result_handling demo demo_ctx long demo_world
    = (Raised UnicodeEncodeError, demo_world).
Proof.
  intros long.
  assert (answered_directly demo demo_ctx long) as Hlong
    by (right; vm_compute; reflexivity).
  assert (undisturbed 1 demo_world) as Hu by (vm_compute; constructor).
  split; [exact I|]. split; [exact Hlong|]. split; [exact Hu|]. split.
  - destruct (direct_results_are_answered_once demo demo_ctx (VEmbed 1)
                demo_world I Hu) as (_ & [H|(H & _)]);
      [exact H|discriminate H].
  - destruct (direct_results_are_answered_once demo demo_ctx long
                demo_world Hlong Hu) as (_ & [(sent & p & w' & H & _)|(H & _)]);
      [|exact H].
    exfalso. revert H. vm_compute. discriminate.
Defined.

(** X8: a result that [jsk_python_result_handling] sends as text of at most
    2000 characters never goes out as an empty message: a text that is
    empty or white space goes out as a zero width space, and replacing the
    token leaves something. *)
Theorem short_text_is_never_empty X ctx result (w : World) :
  textual result → undisturbed 1 w →
  length (result_text X result) ≤ 2000 →
  ∃ text,
    events (jsk_python_result_handling X ctx result w).2
    = Sent (ctx_channel ctx) (Text text) :: events w
    ∧ text ≠ [].
Proof.
  intros Ht Hu Hlen. rewrite (result_handling_text X ctx result Ht). cbv zeta.
  apply Nat.leb_le in Hlen as Hb. rewrite Hb.
  match goal with |- context [ctx_send X ctx (Text ?t) w] =>
    destruct (ctx_send_undisturbed X ctx (Text t) 0 w Hu) as (w1 & -> & He & _);
    exists t end.
  split; [exact He|].
  apply replace_nonempty; [done|]. case_decide as Hs; [done|].
  intros Hnil. by rewrite Hnil in Hs.
Qed.

Lemma short_text_is_never_empty_witness :
  let blank := VStr (py "  ") in
  textual blank ∧ undisturbed 1 demo_world
  ∧ length (result_text demo blank) ≤ 2000
  ∧ ∃ text,
      events (jsk_python_result_handling demo demo_ctx blank demo_world).2
      = Sent (ctx_channel demo_ctx) (Text text) :: events demo_world
      ∧ text ≠ [].
Proof.
  intros blank.
  assert (undisturbed 1 demo_world) as Hu by (vm_compute; constructor).
  assert (length (result_text demo blank) ≤ 2000) as Hlen
    by (apply Nat.leb_le; vm_compute; reflexivity).
  split; [exact I|]. split; [exact Hu|]. split; [exact Hlen|].
  exact (short_text_is_never_empty demo demo_ctx blank demo_world I Hu Hlen).
Defined.

(** X9: when the token has at least the 15 characters of [[token omitted]],
    the text that goes out for a result of at most 2000 characters has at
    most 2000 characters itself: the replacement does not push it over the
    limit that the code checked before. *)
Theorem short_text_stays_short X ctx result (w : World) :
  textual result → undisturbed 1 w →
  length (result_text X result) ≤ 2000 →
  15 ≤ length (bot_token X) →
  ∃ text,
    events (jsk_python_result_handling X ctx result w).2
    = Sent (ctx_channel ctx) (Text text) :: events w
    ∧ length text ≤ 2000.
Proof.
  intros Ht Hu Hlen Htok. rewrite (result_handling_text X ctx result Ht).
  cbv zeta. apply Nat.leb_le in Hlen as Hb. rewrite Hb.
  match goal with |- context [ctx_send X ctx (Text ?t) w] =>
    destruct (ctx_send_undisturbed X ctx (Text t) 0 w Hu) as (w1 & -> & He & _);
    exists t end.
  split; [exact He|].
  etransitivity; [apply replace_length; [|exact Htok]|].
  - intros Hnil. rewrite Hnil in Htok. simpl in Htok. lia.
  - case_decide; [simpl; lia|done].
Qed.

Lemma short_text_stays_short_witness :
  let host := demo_with (py "0123456789abcdefghij") true in
  let result := VStr (py "0123456789abcdefghij!") in
  textual result ∧ undisturbed 1 demo_world
  ∧ length (result_text host result) ≤ 2000
  ∧ 15 ≤ length (bot_token host)
  ∧ ∃ text,
      events (jsk_python_result_handling host demo_ctx result demo_world).2
      = Sent (ctx_channel demo_ctx) (Text text) :: events demo_world
      ∧ length text ≤ 2000.
Proof.
  intros host result.
  assert (undisturbed 1 demo_world) as Hu by (vm_compute; constructor).
  assert (length (result_text host result) ≤ 2000) as Hlen
    by (apply Nat.leb_le; vm_compute; reflexivity).
  assert (15 ≤ length (bot_token host)) as Htok
    by (apply Nat.leb_le; vm_compute; reflexivity).
  split; [exact I|]. split; [exact Hu|]. split; [exact Hlen|].
  split; [exact Htok|].
  exact (short_text_stays_short host demo_ctx result demo_world I Hu Hlen Htok).
Defined.

(** ** The header of an inspection *)

(** X10: the header of an inspection has at most 485 characters, whatever
    the result prints as: a longer one is cut, and the cut keeps its first
    482 characters; the header is the whole text exactly when that has at
    most 485 characters. *)
Theorem inspect_header_is_bounded X result :
  let full :=
    PyStr.replace (bot_token X) (py "[token omitted]")
      (PyStr.replace (py "``") (py "`" ++ [8203%N] ++ py "`") (repr X result)) in
  length (inspect_header X result) ≤ 485
  ∧ take 482 (inspect_header X result) = take 482 full
  ∧ (length full ≤ 485 ↔ inspect_header X result = full).
Proof.
  intros full. unfold inspect_header. cbv zeta. fold full.
  destruct (485 <? length full) eqn:Hlt.
  - apply Nat.ltb_lt in Hlt.
    assert (length (take 482 full) = 482) as Ht by (rewrite length_take; lia).
    assert (length (take 482 full ++ py "...") = 485) as Hl.
    { rewrite length_app, Ht. change (length (py "...")) with 3. lia. }
    split; [lia|]. split.
    + rewrite take_app_le by lia. by rewrite take_take, Nat.min_id.
    + split; [lia|]. intros Heq. rewrite Heq in Hl. lia.
  - apply Nat.ltb_ge in Hlt. by repeat split.
Qed.

(** ** Asking for the retention that is there *)

(** X11: [jsk_retain] without an argument, or for the retention that is
    already set, changes nothing of the feature (the stored Scope and its
    bindings stay), and answers with one message; without an argument the
    message tells the retention as it is. *)
Theorem retain_query_changes_nothing X ctx toggle (w : World) :
  toggle = None ∨ toggle = Some (retain w) →
  same_feature w (jsk_retain X ctx toggle w).2
  ∧ (undisturbed 1 w →
     ∃ text,
       events (jsk_retain X ctx toggle w).2
       = Sent (ctx_channel ctx) (Text text) :: events w
       ∧ (toggle = None →
          text = if retain w then py "Variable retention is set to ON."
                 else py "Variable retention is set to OFF.")).
Proof.
  intros Ht.
  assert (∃ text,
            jsk_retain X ctx toggle w = ctx_send X ctx (Text text) w
            ∧ (toggle = None →
               text = if retain w then py "Variable retention is set to ON."
                      else py "Variable retention is set to OFF."))
    as (text & -> & Htext).
  { unfold jsk_retain, bind, get.
    destruct Ht as [-> | ->]; destruct (retain w); simpl;
      eexists; (split; [reflexivity|done]). }
  split; [apply ctx_send_same_feature|]. intros Hu. exists text.
  split; [|done].
  by destruct (ctx_send_undisturbed X ctx (Text text) 0 w Hu)
    as (w1 & -> & He & _).
Qed.

Lemma retain_query_witness :
  (@None bool = None ∨ None = Some (retain demo_world))
  ∧ undisturbed 1 demo_world
  ∧ same_feature demo_world (jsk_retain demo demo_ctx None demo_world).2
  ∧ ∃ text,
      events (jsk_retain demo demo_ctx None demo_world).2
      = Sent (ctx_channel demo_ctx) (Text text) :: events demo_world
      ∧ (@None bool = None →
         text = if retain demo_world
                then py "Variable retention is set to ON."
                else py "Variable retention is set to OFF.").
Proof.
  assert (@None bool = None ∨ None = Some (retain demo_world)) as Ht
    by (left; reflexivity).
  assert (undisturbed 1 demo_world) as Hu by (vm_compute; constructor).
  split; [exact Ht|]. split; [exact Hu|].
  destruct (retain_query_changes_nothing demo demo_ctx None demo_world Ht)
    as (Hsame & Hanswer).
  split; [exact Hsame|]. exact (Hanswer Hu).
Defined.

(** ** The registry and the cancellations *)

Lemma cancel_requests_app new older :
  cancel_requests (new ++ older) = cancel_requests older ++ cancel_requests new.
Proof. unfold cancel_requests. by rewrite rev_app_distr, omap_app. Qed.

Lemma cancel_requests_sends sends :
  Forall is_Sent sends → cancel_requests sends = [].
Proof.
  induction 1 as [|e sends He _ IH]; [done|].
  change (e :: sends) with ([e] ++ sends).
  rewrite cancel_requests_app, IH. by destruct e.
Qed.

Lemma cancel_requests_each ts :
  cancel_requests (rev ((λ t, CancelRequested (task_handle t)) <$> ts))
  = task_handle <$> ts.
Proof.
  unfold cancel_requests. rewrite rev_involutive.
  induction ts as [|t ts IH]; [done|]. csimpl. by rewrite IH.
Qed.

Lemma remove_first_sublist t ts : sublist (remove_first t ts) ts.
Proof.
  induction ts as [|t' ts IH]; simpl; [done|].
  case_decide; [by apply sublist_cons|by apply sublist_skip].
Qed.

Lemma remove_first_Permutation t ts :
  t ∈ ts → ts ≡ₚ t :: remove_first t ts.
Proof.
  induction ts as [|t' ts IH]; simpl; [by intros ?%elem_of_nil|].
  case_decide as Heq; [by subst|].
  intros [?|Hin]%elem_of_cons; [done|].
  rewrite (IH Hin) at 1. apply Permutation_swap.
Qed.

Lemma last_removelast {A} (l : list A) x :
  last l = Some x → l = removelast l ++ [x].
Proof.
  induction l as [|y l _] using rev_ind; [done|].
  rewrite last_snoc, removelast_last. by intros [= ->].
Qed.

(** The answer at the end of [jsk_cancel] changes neither the registry
    nor the requests. *)
Lemma cancel_account_send X ctx p w w1 cs removed :
  events w1 = cs ++ events w →
  cancel_requests cs = task_handle <$> removed →
  tasks w ≡ₚ removed ++ tasks w1 →
  sublist (tasks w1) (tasks w) →
  same_python_feature w w1 →
  ∃ new removed',
    events (ctx_send X ctx p w1).2 = new ++ events w
    ∧ cancel_requests new = task_handle <$> removed'
    ∧ tasks w ≡ₚ removed' ++ tasks (ctx_send X ctx p w1).2
    ∧ sublist (tasks (ctx_send X ctx p w1).2) (tasks w)
    ∧ same_python_feature w (ctx_send X ctx p w1).2.
Proof.
  intros He Hc Hp Hs (H1 & H2 & H3 & H4 & H5).
  destruct (quietly_ctx_send X ctx p w1) as (sends & He' & Hsends).
  destruct (ctx_send_same_feature X ctx p w1)
    as (F1 & F2 & F3 & F4 & F5 & F6 & _).
  exists (sends ++ cs), removed. rewrite He', He, F6.
  split; [by rewrite app_assoc|]. split.
  { rewrite cancel_requests_app, (cancel_requests_sends sends) by done.
    by rewrite app_nil_r. }
  split; [done|]. split; [done|].
  unfold same_python_feature. by rewrite F1, F2, F3, F4, F5.
Qed.

(** X12: whatever the index and whatever happens to the answer,
    [jsk_cancel] requests the cancellation of exactly the tasks that it
    takes out of the registry: no task leaves the registry without the
    request, none is cancelled and stays; the tasks that stay keep their
    order, and the attributes of [PythonFeature] are not touched. *)
Theorem cancel_requests_match_the_registry X ctx index (w : World) :
  ∃ new removed,
    events (jsk_cancel X ctx index w).2 = new ++ events w
    ∧ cancel_requests new = task_handle <$> removed
    ∧ tasks w ≡ₚ removed ++ tasks (jsk_cancel X ctx index w).2
    ∧ sublist (tasks (jsk_cancel X ctx index w).2) (tasks w)
    ∧ same_python_feature w (jsk_cancel X ctx index w).2.
Proof.
  assert (same_python_feature w w) as Hsame by done.
  assert (∀ p, ∃ new removed,
            events (ctx_send X ctx p w).2 = new ++ events w
            ∧ cancel_requests new = task_handle <$> removed
            ∧ tasks w ≡ₚ removed ++ tasks (ctx_send X ctx p w).2
            ∧ sublist (tasks (ctx_send X ctx p w).2) (tasks w)
            ∧ same_python_feature w (ctx_send X ctx p w).2) as Hnothing.
  { intros p. by apply (cancel_account_send X ctx p w w [] []). }
  assert (∃ new removed,
            events w = new ++ events w
            ∧ cancel_requests new = task_handle <$> removed
            ∧ tasks w ≡ₚ removed ++ tasks w
            ∧ sublist (tasks w) (tasks w)
            ∧ same_python_feature w w) as Hraise.
  { by exists [], []. }
  remember (jsk_cancel X ctx index w) as r eqn:Hr.
  unfold jsk_cancel, bind at 1, get in Hr.
  destruct (tasks w) as [|t0 ts0] eqn:Hts.
  { subst r. apply Hnothing. }
  rewrite <- Hts in *. clear Hts.
  destruct index as [i|s].
  - case_decide as Hi.
    + destruct (last (tasks w)) as [task|] eqn:Hlast;
        [|subst r; exact Hraise].
      unfold bind at 1, modify in Hr.
      unfold bind at 1, cancel, emit, modify in Hr. subst r.
      apply last_removelast in Hlast.
      eapply (cancel_account_send X ctx _ w _
                [CancelRequested (task_handle task)] [task]);
        simpl; try done.
      * rewrite Hlast at 1. by rewrite Permutation_app_comm.
      * rewrite Hlast at 2. by apply sublist_inserts_r.
    + destruct (utils_get i (tasks w)) as [task|] eqn:Hget;
        [|subst r; apply Hnothing].
      destruct (utils_get_Some _ _ _ Hget) as [Hin _].
      unfold bind at 1, modify in Hr.
      unfold bind at 1, cancel, emit, modify in Hr. subst r.
      eapply (cancel_account_send X ctx _ w _
                [CancelRequested (task_handle task)] [task]);
        simpl; try done.
      * by apply remove_first_Permutation.
      * apply remove_first_sublist.
  - case_decide as Hs; [|subst r; exact Hraise].
    unfold bind at 1 in Hr. rewrite cancel_each_eval in Hr.
    unfold bind at 1, modify in Hr. subst r.
    eapply (cancel_account_send X ctx _ w _
              (rev ((λ t, CancelRequested (task_handle t)) <$> tasks w))
              (tasks w)); simpl; try done.
    + apply cancel_requests_each.
    + by rewrite app_nil_r.
    + apply sublist_nil_l.
Qed.

(** ** The listing of the tasks *)

Lemma add_task_lines_fit p ts w :
  length (pg_prefix p) = 3 → pg_suffix p = Some (py "```") →
  pg_max_size p = 1985 →
  Forall (λ t, length (task_line t) ≤ TASK_LINE_ROOM) ts →
  add_task_lines p ts w
  = (Ok {| pg_prefix := pg_prefix p; pg_suffix := pg_suffix p;
           pg_max_size := pg_max_size p;
           pg_lines := pg_lines p ++ (task_line <$> ts) |}, w).
Proof.
  intros Hpre Hsuf Hmax Hfit. revert p Hpre Hsuf Hmax.
  induction Hfit as [|t ts Ht _ IH]; intros p Hpre Hsuf Hmax.
  - simpl. rewrite app_nil_r. clear. destruct p. reflexivity.
  - cbn [add_task_lines]. unfold Paginator_add_line. cbv zeta.
    rewrite Hpre, Hsuf, Hmax. unfold TASK_LINE_ROOM in Ht.
    destruct (_ <? _)%Z eqn:Hlt.
    { apply Z.ltb_lt in Hlt. simpl in Hlt. lia. }
    unfold bind at 1, lift, ret. rewrite IH by done.
    simpl. by rewrite <- app_assoc, Hsuf, Hmax.
Qed.

Lemma add_task_lines_state p ts w : (add_task_lines p ts w).2 = w.
Proof.
  revert p. induction ts as [|t ts IH]; intros p; [done|].
  cbn [add_task_lines]. unfold bind.
  destruct (Paginator_add_line p (task_line t)); simpl; [apply IH|done].
Qed.

(** X13: [jsk_tasks] changes nothing of the features, whatever happens: it
    only reads the registry.  With no task it answers that there is none;
    with tasks whose lines fit a page it sends one paginator whose lines
    are the lines of the tasks, one for each task, in the order of the
    registry. *)
Theorem jsk_tasks_lists_the_registry X ctx (w : World) :
  same_feature w (jsk_tasks X ctx w).2
  ∧ (undisturbed 1 w →
     (tasks w = [] →
      events (jsk_tasks X ctx w).2
      = Sent (ctx_channel ctx) (Text (py "No currently running tasks."))
        :: events w)
     ∧ (tasks w ≠ [] →
        Forall (λ t, length (task_line t) ≤ TASK_LINE_ROOM) (tasks w) →
        ∃ interface,
          events (jsk_tasks X ctx w).2
          = Sent (ctx_channel ctx) (Pages interface) :: events w
          ∧ pg_lines (if_paginator interface) = task_line <$> tasks w
          ∧ if_owner interface = ctx_author ctx)).
Proof.
  split.
  - unfold jsk_tasks. apply keeps_get_bind; [frame..|]. intros w0.
    destruct (tasks w0); [apply ctx_send_same_feature|].
    apply keeps_bind; [frame..| |intros; apply send_to_same_feature].
    intros w1. rewrite add_task_lines_state. apply same_feature_refl.
  - intros Hu.
    assert (jsk_tasks X ctx w =
            match tasks w with
            | [] => ctx_send X ctx (Text (py "No currently running tasks.")) w
            | _ :: _ =>
                (paginator <- add_task_lines (commands_Paginator 1985) (tasks w) ;;
                 send_to X {| if_paginator := paginator;
                              if_owner := ctx_author ctx |} ctx) w
            end) as -> by (unfold jsk_tasks, bind, get; by destruct (tasks w)).
    split.
    + intros ->.
      by destruct (ctx_send_undisturbed X ctx
                     (Text (py "No currently running tasks.")) 0 w Hu)
        as (w1 & -> & He & _).
    + intros Hne Hfit. destruct (tasks w) as [|t ts] eqn:Hts; [done|].
      unfold bind. rewrite add_task_lines_fit by done.
      match goal with |- context [send_to X ?i ctx w] =>
        destruct (send_to_undisturbed X i ctx 0 w Hu) as (w1 & -> & He & _);
        exists i end.
      cbn [snd]. split; [exact He|done].
Qed.

Lemma jsk_tasks_witness :
  let task n :=
    {| task_index := n; task_ctx := demo_ctx; task_handle := Z.to_nat n |} in
  let w := with_tasks [task 1%Z; task 2%Z] demo_world in
  undisturbed 1 w ∧ tasks w ≠ []
  ∧ Forall (λ t, length (task_line t) ≤ TASK_LINE_ROOM) (tasks w)
  ∧ ∃ interface,
      events (jsk_tasks demo demo_ctx w).2
      = Sent (ctx_channel demo_ctx) (Pages interface) :: events w
      ∧ pg_lines (if_paginator interface) = task_line <$> tasks w
      ∧ if_owner interface = ctx_author demo_ctx.
Proof.
  intros task w.
  assert (undisturbed 1 w) as Hu by (vm_compute; constructor).
  assert (tasks w ≠ []) as Hne by discriminate.
  assert (Forall (λ t, length (task_line t) ≤ TASK_LINE_ROOM) (tasks w))
    as Hfit.
  { apply Forall_cons. split; [apply Nat.leb_le; vm_compute; reflexivity|].
    apply Forall_cons. split; [apply Nat.leb_le; vm_compute; reflexivity|].
    apply Forall_nil_2. }
  split; [exact Hu|]. split; [exact Hne|]. split; [exact Hfit|].
  destruct (jsk_tasks_lists_the_registry demo demo_ctx w) as (_ & H).
  destruct (H Hu) as (_ & Hlist). exact (Hlist Hne Hfit).
Defined.

(** ** Hiding and showing *)

Lemma in_feature_hidden {A} (m : M A) r : hidden (in_feature m r).2 = hidden r.
Proof. unfold in_feature. by destruct (m (feature r)). Qed.

Lemma in_feature_feature {A} (m : M A) r :
  feature (in_feature m r).2 = (m (feature r)).2.
Proof. unfold in_feature. by destruct (m (feature r)). Qed.

(** X14: after [jsk_hide] the command is hidden and after [jsk_show] it is
    not, whatever it was before and whatever happens to the answer (the
    flag is set before the answer is sent); so each undoes the other.
    The features are not touched, and the answer tells whether the flag
    was changed. *)
Theorem hide_and_show_undo_each_other X ctx ctx' (r : Root) :
  hidden (jsk_hide X ctx r).2 = true
  ∧ hidden (jsk_show X ctx r).2 = false
  ∧ hidden (jsk_show X ctx' (jsk_hide X ctx r).2).2 = false
  ∧ hidden (jsk_hide X ctx' (jsk_show X ctx r).2).2 = true
  ∧ same_feature (feature r) (feature (jsk_hide X ctx r).2)
  ∧ same_feature (feature r) (feature (jsk_show X ctx r).2)
  ∧ (undisturbed 1 (feature r) →
     events (feature (jsk_hide X ctx r).2)
     = Sent (ctx_channel ctx)
         (Text (if hidden r then py "Jishaku is already hidden."
                else py "Jishaku is now hidden."))
       :: events (feature r)
     ∧ events (feature (jsk_show X ctx r).2)
       = Sent (ctx_channel ctx)
           (Text (if hidden r then py "Jishaku is now visible."
                  else py "Jishaku is already visible."))
         :: events (feature r)).
Proof.
  assert (∀ c r0, hidden (jsk_hide X c r0).2 = true) as Hhide.
  { intros c r0. unfold jsk_hide.
    destruct (hidden r0) eqn:Hh; by rewrite in_feature_hidden. }
  assert (∀ c r0, hidden (jsk_show X c r0).2 = false) as Hshow.
  { intros c r0. unfold jsk_show.
    destruct (hidden r0) eqn:Hh; simpl; by rewrite in_feature_hidden. }
  assert (∀ text w,
            same_feature w ((ctx_send X ctx (Text text) ;; ret VNone) w).2
            ∧ (undisturbed 1 w →
               events ((ctx_send X ctx (Text text) ;; ret VNone) w).2
               = Sent (ctx_channel ctx) (Text text) :: events w)) as Hnow.
  { intros text w. split.
    - apply keeps_bind; [frame..| |intros; apply keeps_ret; frame].
      apply ctx_send_same_feature.
    - intros Hu. unfold bind.
      by destruct (ctx_send_undisturbed X ctx (Text text) 0 w Hu)
        as (w1 & -> & He & _). }
  assert (∀ text w,
            same_feature w (ctx_send X ctx (Text text) w).2
            ∧ (undisturbed 1 w →
               events (ctx_send X ctx (Text text) w).2
               = Sent (ctx_channel ctx) (Text text) :: events w)) as Halready.
  { intros text w. split; [apply ctx_send_same_feature|].
    intros Hu.
    by destruct (ctx_send_undisturbed X ctx (Text text) 0 w Hu)
      as (w1 & -> & He & _). }
  split; [apply Hhide|]. split; [apply Hshow|].
  split; [apply Hshow|]. split; [apply Hhide|].
  unfold jsk_hide, jsk_show.
  destruct (hidden r); simpl; rewrite !in_feature_feature; simpl;
    (split; [first [apply Hnow | apply Halready]|]);
    (split; [first [apply Hnow | apply Halready]|]);
    intros Hu; (split; [by first [apply Hnow | apply Halready]|]);
    by first [apply Hnow | apply Halready].
Qed.

Lemma hide_and_show_witness :
  let r := {| hidden := false; feature := demo_world |} in
  undisturbed 1 (feature r)
  ∧ events (feature (jsk_hide demo demo_ctx r).2)
    = Sent (ctx_channel demo_ctx)
        (Text (if hidden r then py "Jishaku is already hidden."
               else py "Jishaku is now hidden."))
      :: events (feature r).
Proof.
  intros r.
  assert (undisturbed 1 (feature r)) as Hu by (vm_compute; constructor).
  split; [exact Hu|].
  destruct (hide_and_show_undo_each_other demo demo_ctx demo_ctx r)
    as (_ & _ & _ & _ & _ & _ & H).
  destruct (H Hu) as [Hh _]. exact Hh.
Defined.

(** ** Disassembly and syntax tree *)

Lemma ctx_send_one_message X ctx p w :
  at_most_one_message (ctx_channel ctx) w ((ctx_send X ctx p ;; ret tt) w).2.
Proof.
  unfold at_most_one_message, ctx_send, bind, get, modify, ret.
  destruct (await_point_cases w) as [[f ->]|[e [f ->]]]; simpl; eauto.
Qed.

Lemma send_to_one_message X i ctx w :
  at_most_one_message (ctx_channel ctx) w ((send_to X i ctx ;; ret tt) w).2.
Proof.
  unfold at_most_one_message, send_to, bind, emit, modify, ret.
  destruct (await_point_cases w) as [[f ->]|[e [f ->]]]; simpl; eauto.
Qed.

Lemma lift_one_message {A} channel (o : outcome A) (k : A → M unit) w :
  (∀ a, at_most_one_message channel w (k a w).2) →
  at_most_one_message channel w ((a <- lift o ;; k a) w).2.
Proof.
  intros Hk. destruct o as [a|e]; [apply Hk|by left].
Qed.

Lemma ReplResponseReactor_one_message X channel body w :
  (∀ w0, at_most_one_message channel w0 (body w0).2) →
  at_most_one_message channel w (ReplResponseReactor X body w).2.
Proof.
  intros Hbody.
  destruct (ReplResponseReactor_events X body w) as [?|(w0 & H0 & H)];
    [by left|].
  unfold at_most_one_message. rewrite H, <- H0. apply Hbody.
Qed.

Lemma disassemble_body_same_feature X Y ctx argument :
  keeps same_feature
    (lines <- lift (disassemble Y (content argument)
                      (get_var_dict_from_ctx X ctx (SCOPE_PREFIX X))) ;;
     let text := PyStr.join [10%N] lines in
     if use_file_check X ctx (length text) then
       match PyStr.encode_utf8 text with
       | Some bytes =>
           ctx_send X ctx
             (Upload {| file_name := py "dis.py"; file_bytes := bytes |}) ;;
           ret tt
       | None => raise UnicodeEncodeError
       end
     else
       send_to X
         {| if_paginator :=
              add_line (WrappedPaginator (py "```py") None 1985) text;
            if_owner := ctx_author ctx |} ctx ;;
       ret tt).
Proof.
  apply keeps_bind; [frame..| |].
  - unfold lift. destruct (disassemble Y _ _);
      [apply keeps_ret|apply keeps_raise]; frame.
  - intros lines. cbv zeta. repeat case_match.
    + apply keeps_bind; [frame..| |intros; apply keeps_ret; frame].
      apply ctx_send_same_feature.
    + apply keeps_raise; frame.
    + apply keeps_bind; [frame..| |intros; apply keeps_ret; frame].
      apply send_to_same_feature.
Qed.

(** X15: [jsk_disassemble] and [jsk_ast] execute nothing: no executor is
    made, no task is registered, no Scope is touched and the stored last
    result stays; all that they leave behind is one message at most. *)
Theorem disassembly_and_tree_execute_nothing X Y ctx argument (w : World) :
  same_feature w (jsk_disassemble X Y ctx argument w).2
  ∧ at_most_one_message (ctx_channel ctx) w
      (jsk_disassemble X Y ctx argument w).2
  ∧ same_feature w (jsk_ast X Y ctx argument w).2
  ∧ at_most_one_message (ctx_channel ctx) w (jsk_ast X Y ctx argument w).2.
Proof.
  split; [|split; [|split]].
  - unfold jsk_disassemble.
    eapply (keeps_ReplResponseReactor X same_feature); [frame..|].
    apply disassemble_body_same_feature.
  - unfold jsk_disassemble. apply ReplResponseReactor_one_message.
    intros w0. apply lift_one_message. intros lines. cbv zeta.
    repeat case_match;
      first [apply ctx_send_one_message | apply send_to_one_message | by left].
  - unfold jsk_ast.
    eapply (keeps_ReplResponseReactor X same_feature); [frame..|].
    apply keeps_bind; [frame..| |].
    + unfold lift. destruct (create_tree Y _ _);
        [apply keeps_ret|apply keeps_raise]; frame.
    + intros text. case_match; [|apply keeps_raise; frame].
      apply keeps_bind; [frame..| |intros; apply keeps_ret; frame].
      apply ctx_send_same_feature.
  - unfold jsk_ast. apply ReplResponseReactor_one_message.
    intros w0. apply lift_one_message. intros text.
    case_match; first [apply ctx_send_one_message | by left].
Qed.

(** On the small host: the disassembly of [1+1] goes out as the file
    [dis.py], and a source that [disassemble] cannot compile leaves no
    message, the reactor taking the [SyntaxError]. *)
Lemma jsk_disassemble_on_the_small_host :
  events (jsk_disassemble demo demo_tools demo_ctx (codeblock "1+1")
            demo_world).2
  = [Sent 9 (Upload {| file_name := py "dis.py";
                       file_bytes :=
                         py "LOAD_CONST" ++ [10%N] ++ py "RETURN_VALUE" |})]
  ∧ jsk_disassemble demo demo_tools demo_ctx (codeblock "1+") demo_world
    = (Ok tt, demo_world).
Proof. split; vm_compute; reflexivity. Qed.
